(** * MotionGen (genimag): a shallow embedding of the application logic

    The development follows the TypeScript sources:
    - [JS]            the fragments of the JavaScript run time the code uses
                      (truthiness, [String(n)], [padStart], anchored regular
                      expressions, IEEE-754 numbers, [sort], [reduce]);
    - [GeminiService] services/geminiService.ts;
    - [Async]         a batch of promises joined by [Promise.all];
    - [Player]        components/AnimationPlayer.tsx;
    - [App]           App.tsx;
    - [Uploader]      components/ImageUploader.tsx;
    - [Session]       the events the rendered page admits;
    - [Samples]       concrete services, browsers and states.
    The properties follow the definitions. *)

From Stdlib Require Import ZArith NArith Lia List String Ascii Bool.
From Stdlib Require Import DecimalString DecimalN Sorting.Sorted.
From Stdlib Require Import Floats.SpecFloat QArith Qabs.
From stdpp Require Import base list strings.

Open Scope string_scope.

(* ===================================================================== *)
(** * The JavaScript fragments used by the sources                        *)
(* ===================================================================== *)

Module JS.

(** ** Completion records: a call returns a value or throws. *)

Inductive completion (A : Type) : Type :=
| Return (a : A)
| Throw (reason : string).
Arguments Return {A} a.
Arguments Throw {A} reason.

(** ** Truthiness of [string | null | undefined] values.
    [null], [undefined] and the empty string are falsy. *)

Definition truthy_string (s : string) : bool := negb (String.eqb s "").

Definition truthy (v : option string) : bool :=
  match v with
  | Some s => truthy_string s
  | None => false
  end.

(** ** [String(n)] for a non-negative integer: its decimal digits. *)

Definition String_of (n : N) : string :=
  NilEmpty.string_of_uint (N.to_uint n).

(** The number a string of decimal digits denotes. *)
Definition decimal_value (s : string) : option N :=
  match NilEmpty.uint_of_string s with
  | Some d => Some (N.of_uint d)
  | None => None
  end.

(** ** [s.padStart(targetLength, fill)].
    [cycle n cur fill] takes [n] characters from [cur], restarting from
    [fill] whenever [cur] is exhausted: the truncated repetition of the
    fill string. *)

Fixpoint cycle (n : nat) (cur fill : string) : string :=
  match n with
  | O => ""
  | S n' =>
      match cur with
      | String c cur' => String c (cycle n' cur' fill)
      | EmptyString =>
          match fill with
          | String c fill' => String c (cycle n' fill' fill)
          | EmptyString => ""
          end
      end
  end.

Definition padStart (s : string) (targetLength : nat) (fill : string) : string :=
  if (targetLength <=? String.length s)%nat then s
  else cycle (targetLength - String.length s) fill fill +:+ s.

(** ** Regular expressions anchored at [^], as far as the sources use
    them: literals, [\w+] and an alternation of literals. *)

Inductive re : Type :=
| Lit (s : string)
| WordPlus
| AltLit (alts : list string).

Definition is_word_char (c : ascii) : bool :=
  let n := nat_of_ascii c in
  ((48 <=? n) && (n <=? 57) || (65 <=? n) && (n <=? 90)
   || (97 <=? n) && (n <=? 122) || (n =? 95))%nat.

(** [strip_lit l s]: the rest of [s] after the literal [l], if [s] starts
    with it. *)
Fixpoint strip_lit (l s : string) : option string :=
  match l with
  | EmptyString => Some s
  | String a l' =>
      match s with
      | String b s' => if Ascii.eqb a b then strip_lit l' s' else None
      | EmptyString => None
      end
  end.

(** Length of the longest run of word characters at the start of [s]. *)
Fixpoint word_run (s : string) : nat :=
  match s with
  | String c s' => if is_word_char c then S (word_run s') else O
  | EmptyString => O
  end.

Fixpoint drop_chars (n : nat) (s : string) : string :=
  match n with
  | O => s
  | S n' => match s with String _ s' => drop_chars n' s' | EmptyString => "" end
  end.

(** Greedy [+]: try the continuation [k] after [n], [n-1], ..., [1]
    characters of the run. *)
Fixpoint greedy (k : string -> option string) (n : nat) (s : string) : option string :=
  match n with
  | O => None
  | S n' =>
      match k (drop_chars n s) with
      | Some r => Some r
      | None => greedy k n' s
      end
  end.

(** Alternation: the alternatives are tried from left to right. *)
Fixpoint first_alt (k : string -> option string) (alts : list string) (s : string)
  : option string :=
  match alts with
  | [] => None
  | a :: alts' =>
      match strip_lit a s with
      | Some s' =>
          match k s' with
          | Some r => Some r
          | None => first_alt k alts' s
          end
      | None => first_alt k alts' s
      end
  end.

(** [match_start p s]: what follows the match of [^p] in [s], if any. *)
Fixpoint match_start (p : list re) (s : string) : option string :=
  match p with
  | [] => Some s
  | Lit l :: p' =>
      match strip_lit l s with
      | Some s' => match_start p' s'
      | None => None
      end
  | WordPlus :: p' => greedy (match_start p') (word_run s) s
  | AltLit alts :: p' => first_alt (match_start p') alts s
  end.

(** [s.replace(/^p/, "")]: without the [g] flag and anchored, at most the
    match at the start is removed. *)
Definition replace_start (p : list re) (s : string) : string :=
  match match_start p s with
  | Some rest => rest
  | None => s
  end.

(** ** Numbers: IEEE-754 binary64, round to nearest even. *)

Definition number : Type := spec_float.

Definition prec64 : Z := 53.
Definition emax64 : Z := 1024.

Definition of_int (z : Z) : number := binary_normalize prec64 emax64 z 0 false.
Definition num_sub (x y : number) : number := SFsub prec64 emax64 x y.
Definition num_div (x y : number) : number := SFdiv prec64 emax64 x y.
Definition num_abs (x : number) : number := SFabs x.
Definition num_lt (x y : number) : bool := SFltb x y.

Definition is_nan (x : number) : bool :=
  match x with
  | S754_nan => true
  | _ => false
  end.

(** A decimal literal [m / 10^k] denotes the correctly rounded
    quotient. *)
Definition decimal (m : Z) (k : nat) : number :=
  num_div (of_int m) (of_int (10 ^ Z.of_nat k)).

(** ** [x % y] on integers: the remainder has the sign of the dividend. *)
Definition js_rem (x y : Z) : Z := Z.rem x y.

(** ** [arr.reduce(f)] without initial value; on an empty array it throws
    a TypeError. *)
Definition reduce {A} (f : A -> A -> A) (l : list A) : completion A :=
  match l with
  | [] => Throw "TypeError: Reduce of empty array with no initial value"
  | x :: xs => Return (fold_left f xs x)
  end.

(** The callback "keep the previous element unless the current one is
    strictly smaller", and what it selects: [first_min lt l r pre post]
    says that [r] splits [l], is strictly below everything before it and
    not above anything after it. *)
Definition pick {A} (lt : A -> A -> bool) (prev curr : A) : A :=
  if lt curr prev then curr else prev.

Definition first_min {A} (lt : A -> A -> bool) (l : list A) (r : A)
    (pre post : list A) : Prop :=
  l = (pre ++ r :: post)%list /\
  (forall c, c ∈ pre -> lt r c = true) /\
  (forall c, c ∈ post -> lt c r = false).

(** ** [arr.sort(cmp)]: a stable sort.  [insert_by] puts [x] in front of
    the first element it compares below, so behind its equals. *)

Fixpoint insert_by {A} (cmp : A -> A -> Z) (x : A) (l : list A) : list A :=
  match l with
  | [] => [x]
  | y :: l' => if (cmp x y <? 0)%Z then x :: y :: l' else y :: insert_by cmp x l'
  end.

Definition sort {A} (cmp : A -> A -> Z) (l : list A) : list A :=
  fold_left (fun acc x => insert_by cmp x acc) l [].

(** ** More of the run time *)

(** Did the call return? *)
Definition succeeded {A} (c : completion A) : bool :=
  match c with
  | Return _ => true
  | Throw _ => false
  end.

(** [s.startsWith(p)] *)
Definition startsWith (s p : string) : bool :=
  match strip_lit p s with
  | Some _ => true
  | None => false
  end.

(** The first [n] characters of [s]. *)
Fixpoint take_chars (n : nat) (s : string) : string :=
  match n with
  | O => ""
  | S n' =>
      match s with
      | String c s' => String c (take_chars n' s')
      | EmptyString => ""
      end
  end.

(** How many of the requests at the positions [l] return. *)
Definition successes (outcome : nat -> completion string) (l : list nat) : nat :=
  length (List.filter (fun p => succeeded (outcome p)) l).

End JS.

(* ===================================================================== *)
(** * services/geminiService.ts                                           *)
(* ===================================================================== *)

Module GeminiService.
Import JS.

(** ** The shape of a [generateContent] exchange.  Optional fields of the
    SDK's response are [option]s: [None] is [undefined]. *)

Record InlineData := { data : option string; mimeType : option string }.
Record Part := { text : option string; inlineData : option InlineData }.
Record Content := { parts : option (list Part) }.
Record Candidate := { content : option Content }.
Record Response := { candidates : option (list Candidate) }.

(** The prompt is a template instantiated at these values. *)
Inductive Prompt : Type :=
| MotionPrompt (frameIndex totalFrames : nat) (description direction : string)
| UpscalePrompt.

Record ImageConfig := { imageSize : string; aspectRatio : string }.

Record Request := {
  model : string;
  prompt : Prompt;
  imageMimeType : string;
  imageData : string;
  temperature : option number;
  imageConfig : option ImageConfig
}.

(** The hosted model: any function from requests to completions. *)
Definition Service : Type := Request -> completion Response.

(** [/^data:image\/(png|jpeg|jpg|webp);base64,/] *)
Definition input_prefix : list re :=
  [Lit "data:image/"; AltLit ["png"; "jpeg"; "jpg"; "webp"]; Lit ";base64,"].

Definition png_prefix : string := "data:image/png;base64,".

(** The loop over [parts]: the first part whose [inlineData.data] is
    truthy gives the URL; the URL stays [""] when there is none. *)
Fixpoint first_image (ps : list Part) : string :=
  match ps with
  | [] => ""
  | p :: ps' =>
      match inlineData p with
      | Some i =>
          if truthy (data i) then png_prefix +:+ default "" (data i)
          else first_image ps'
      | None => first_image ps'
      end
  end.

(** [response.candidates && response.candidates[0].content.parts] followed
    by the loop.  Reading a property of [undefined] throws a TypeError. *)
Definition extract_image (r : Response) : completion string :=
  match candidates r with
  | None => Return ""
  | Some cs =>
      match cs !! 0%nat with
      | None => Throw "TypeError: Cannot read properties of undefined (reading 'content')"
      | Some c =>
          match content c with
          | None => Throw "TypeError: Cannot read properties of undefined (reading 'parts')"
          | Some ct =>
              match parts ct with
              | None => Return ""
              | Some ps => Return (first_image ps)
              end
          end
      end
  end.

(** What follows the [generateContent] call in both functions; the
    [catch] block logs and rethrows, so every failure is a [Throw]. *)
Definition image_or_throw (missing : string) (r : completion Response)
  : completion string :=
  match r with
  | Throw e => Throw e
  | Return resp =>
      match extract_image resp with
      | Throw e => Throw e
      | Return url => if truthy_string url then Return url else Throw missing
      end
  end.

Definition motion_request (base64Image : string) (frameIndex totalFrames : nat)
    (description direction : string) : Request :=
  {| model := "gemini-2.5-flash-image";
     prompt := MotionPrompt frameIndex totalFrames description direction;
     imageMimeType := "image/jpeg";
     imageData := replace_start input_prefix base64Image;
     temperature := Some (decimal 4 1);
     imageConfig := None |}.

Definition generateMotionFrame (ai : Service) (base64Image : string)
    (frameIndex totalFrames : nat) (description direction : string)
  : completion string :=
  image_or_throw "No image data returned from Gemini."
    (ai (motion_request base64Image frameIndex totalFrames description direction)).

Definition upscale_request (base64Image aspect : string) : Request :=
  {| model := "gemini-3-pro-image-preview";
     prompt := UpscalePrompt;
     imageMimeType := "image/jpeg";
     imageData := replace_start input_prefix base64Image;
     temperature := None;
     imageConfig := Some {| imageSize := "2K"; aspectRatio := aspect |} |}.

Definition upscaleFrame (ai : Service) (base64Image aspect : string)
  : completion string :=
  image_or_throw "No upscaled image returned from Gemini."
    (ai (upscale_request base64Image aspect)).

(** A response carries image data when some part of some candidate has a
    non-empty [inlineData.data]. *)
Definition part_has_image (p : Part) : bool :=
  match inlineData p with
  | Some i => truthy (data i)
  | None => false
  end.

Definition candidate_has_image (c : Candidate) : bool :=
  match content c with
  | Some ct =>
      match parts ct with
      | Some ps => existsb part_has_image ps
      | None => false
      end
  | None => false
  end.

Definition has_image_data (r : Response) : bool :=
  match candidates r with
  | Some cs => existsb candidate_has_image cs
  | None => false
  end.

End GeminiService.

(* ===================================================================== *)
(** * A batch of requests joined by [Promise.all]                         *)
(* ===================================================================== *)

(** Both orchestrators build one promise per request, attach a [.then]
    handler to it, and await [Promise.all] of the lot inside a [try].
    The run below is driven by the order in which the requests settle.
    [Promise.all] stores each value at the position of its promise,
    resolves when the last value arrives, and rejects at the first
    failure; handlers of requests settling after that still run. *)

Module Async.
Import JS.

Inductive slot (A : Type) : Type :=
| Waiting
| Done (a : A)
| Failed.
Arguments Waiting {A}.
Arguments Done {A} a.
Arguments Failed {A}.

Record join (A : Type) : Type := {
  slots : list (slot A);
  settled : bool   (* has [Promise.all] resolved or rejected? *)
}.
Arguments slots {A} j.
Arguments settled {A} j.

(** The values of the slots, once every one of them is [Done]. *)
Fixpoint values {A} (sl : list (slot A)) : option (list A) :=
  match sl with
  | [] => Some []
  | Done a :: sl' =>
      match values sl' with
      | Some vs => Some (a :: vs)
      | None => None
      end
  | _ :: _ => None
  end.

Section Batch.
Context {S A : Type}.
(** The [.then] handler of a request: its effect on the state, and the
    value its promise resolves to. *)
Variable then_effect : S -> S.
Variable then_value : nat -> string -> A.
(** What follows [await Promise.all(...)], and the [catch] path. *)
Variable on_all : list A -> S -> S.
Variable on_error : string -> S -> S.
(** The outcome of the request at each position. *)
Variable outcome : nat -> completion string.

Definition start (n : nat) (s : S) : S * join A :=
  let sl := replicate n Waiting in
  match values sl with
  | Some vs => (on_all vs s, {| slots := sl; settled := true |})
  | None => (s, {| slots := sl; settled := false |})
  end.

(** The request at position [p] settles.  A request settles once: an
    event for a position that is not waiting does nothing. *)
Definition settle (st : S * join A) (p : nat) : S * join A :=
  let '(s, j) := st in
  match slots j !! p with
  | Some Waiting =>
      match outcome p with
      | Return v =>
          let s1 := then_effect s in
          let sl := <[p := Done (then_value p v)]> (slots j) in
          if settled j then (s1, {| slots := sl; settled := true |})
          else
            match values sl with
            | Some vs => (on_all vs s1, {| slots := sl; settled := true |})
            | None => (s1, {| slots := sl; settled := false |})
            end
      | Throw e =>
          let sl := <[p := Failed]> (slots j) in
          if settled j then (s, {| slots := sl; settled := true |})
          else (on_error e s, {| slots := sl; settled := true |})
      end
  | _ => st
  end.

Definition run (n : nat) (order : list nat) (s : S) : S :=
  fst (fold_left settle order (start n s)).
End Batch.

End Async.

(* ===================================================================== *)
(** * components/AnimationPlayer.tsx                                      *)
(* ===================================================================== *)

Module Player.
Import JS.

Record PlayerState := { currentIndex : Z; isPlaying : bool }.

(** The calls to the two state setters; a handler is the list of the
    calls it makes, in order. *)
Inductive update : Type :=
| SetIsPlaying (b : bool)
| SetCurrentIndex (f : Z -> Z).

Definition apply_update (st : PlayerState) (u : update) : PlayerState :=
  match u with
  | SetIsPlaying b => {| currentIndex := currentIndex st; isPlaying := b |}
  | SetCurrentIndex f => {| currentIndex := f (currentIndex st); isPlaying := isPlaying st |}
  end.

Definition run_updates (us : list update) (st : PlayerState) : PlayerState :=
  fold_left apply_update us st.

Definition initial : PlayerState := {| currentIndex := 0; isPlaying := false |}.

(** The effect on [frames]: it runs after mounting and whenever the
    sequence changes, and brings the player back to [initial]. *)
Definition onFramesChange : list update :=
  [SetCurrentIndex (fun _ => 0%Z); SetIsPlaying false].

Section Handlers.
Variable frames : list string.

Definition len : Z := Z.of_nat (length frames).

Definition handleNext : list update :=
  [SetIsPlaying false; SetCurrentIndex (fun prev => js_rem (prev + 1) len)].

Definition handlePrev : list update :=
  [SetIsPlaying false; SetCurrentIndex (fun prev => js_rem (prev - 1 + len) len)].

Definition handleThumbnailClick (index : Z) : list update :=
  [SetIsPlaying false; SetCurrentIndex (fun _ => index)].

Definition handleReset : list update :=
  [SetIsPlaying false; SetCurrentIndex (fun _ => 0%Z)].

Definition handlePlayPause (st : PlayerState) : list update :=
  [SetIsPlaying (negb (isPlaying st))].

(** The interval callback, installed while [isPlaying && frames.length > 1]. *)
Definition tick : list update :=
  [SetCurrentIndex (fun prev => js_rem (prev + 1) len)].

(** What the user or the timer can do to a mounted player. *)
Inductive action : Type :=
| Next
| Prev
| Thumbnail (idx : nat)
| PlayPause
| Reset
| Tick.

(** The component renders nothing for an empty sequence; there is one
    thumbnail button per frame; the timer runs only while playing more
    than one frame. *)
Definition step (st : PlayerState) (a : action) : PlayerState :=
  if (length frames =? 0)%nat then st
  else
    match a with
    | Next => run_updates handleNext st
    | Prev => run_updates handlePrev st
    | Thumbnail idx =>
        if (idx <? length frames)%nat
        then run_updates (handleThumbnailClick (Z.of_nat idx)) st
        else st
    | PlayPause => run_updates (handlePlayPause st) st
    | Reset => run_updates handleReset st
    | Tick =>
        if isPlaying st && (1 <? length frames)%nat
        then run_updates tick st
        else st
    end.

Definition play (acts : list action) : PlayerState :=
  fold_left step acts initial.
End Handlers.

End Player.

(* ===================================================================== *)
(** * App.tsx                                                             *)
(* ===================================================================== *)

Module App.
Import JS.

Definition TOTAL_FRAMES : nat := 10.

(** ** State *)

Record GenerationStatus := {
  isGenerating : bool;
  completedFrames : nat;
  totalFrames : nat;
  error : option string
}.

Record AppState := {
  originalImage : option string;
  generatedFrames : list string;
  promptDescription : string;
  selectedDirection : string;
  status : GenerationStatus;
  isDownloading : bool;
  isUpscaling : bool
}.

(** What the handlers do outside the React state: [alert] calls and
    downloads triggered through a temporary link. *)
Inductive Blob : Type :=
| ZipBlob (entries : list (string * string))
| VideoBlob (mime : string) (shown : list (string * nat)).

Record Download := { filename : string; blob : Blob }.

Record World := {
  ui : AppState;
  alerts : list string;
  downloads : list Download
}.

Definition initial_status : GenerationStatus :=
  {| isGenerating := false; completedFrames := 0; totalFrames := TOTAL_FRAMES;
     error := None |}.

Definition initial : World :=
  {| ui := {| originalImage := None; generatedFrames := [];
              promptDescription := "The main subject is moving";
              selectedDirection := "Right";
              status := initial_status;
              isDownloading := false; isUpscaling := false |};
     alerts := []; downloads := [] |}.

(** ** The state setters *)

Definition with_ui (f : AppState -> AppState) (w : World) : World :=
  {| ui := f (ui w); alerts := alerts w; downloads := downloads w |}.

Definition setOriginalImage (v : option string) : World -> World :=
  with_ui (fun s =>
    {| originalImage := v; generatedFrames := generatedFrames s;
       promptDescription := promptDescription s;
       selectedDirection := selectedDirection s; status := status s;
       isDownloading := isDownloading s; isUpscaling := isUpscaling s |}).

Definition setGeneratedFrames (v : list string) : World -> World :=
  with_ui (fun s =>
    {| originalImage := originalImage s; generatedFrames := v;
       promptDescription := promptDescription s;
       selectedDirection := selectedDirection s; status := status s;
       isDownloading := isDownloading s; isUpscaling := isUpscaling s |}).

(** [setStatus(prev => f(prev))]; [setStatus(v)] is [setStatus (fun _ => v)]. *)
Definition setStatus (f : GenerationStatus -> GenerationStatus) : World -> World :=
  with_ui (fun s =>
    {| originalImage := originalImage s; generatedFrames := generatedFrames s;
       promptDescription := promptDescription s;
       selectedDirection := selectedDirection s; status := f (status s);
       isDownloading := isDownloading s; isUpscaling := isUpscaling s |}).

Definition setIsDownloading (v : bool) : World -> World :=
  with_ui (fun s =>
    {| originalImage := originalImage s; generatedFrames := generatedFrames s;
       promptDescription := promptDescription s;
       selectedDirection := selectedDirection s; status := status s;
       isDownloading := v; isUpscaling := isUpscaling s |}).

Definition setIsUpscaling (v : bool) : World -> World :=
  with_ui (fun s =>
    {| originalImage := originalImage s; generatedFrames := generatedFrames s;
       promptDescription := promptDescription s;
       selectedDirection := selectedDirection s; status := status s;
       isDownloading := isDownloading s; isUpscaling := v |}).

Definition alert (msg : string) (w : World) : World :=
  {| ui := ui w; alerts := alerts w ++ [msg]; downloads := downloads w |}.

Definition download (name : string) (b : Blob) (w : World) : World :=
  {| ui := ui w; alerts := alerts w;
     downloads := downloads w ++ [{| filename := name; blob := b |}] |}.

(** The status updates the handlers use. *)
Definition bump (prev : GenerationStatus) : GenerationStatus :=
  {| isGenerating := isGenerating prev;
     completedFrames := completedFrames prev + 1;
     totalFrames := totalFrames prev; error := error prev |}.

Definition not_generating (prev : GenerationStatus) : GenerationStatus :=
  {| isGenerating := false; completedFrames := completedFrames prev;
     totalFrames := totalFrames prev; error := error prev |}.

Definition generation_failed_msg : string :=
  "Failed to generate frames. Please try again or use a different image.".

Definition generation_failed (prev : GenerationStatus) : GenerationStatus :=
  {| isGenerating := false; completedFrames := completedFrames prev;
     totalFrames := totalFrames prev; error := Some generation_failed_msg |}.

Definition restart_count (n : nat) (prev : GenerationStatus) : GenerationStatus :=
  {| isGenerating := isGenerating prev; completedFrames := 0;
     totalFrames := n; error := error prev |}.

(** ** The browser and the hosted model *)

Record AiStudio := {
  hasSelectedApiKey : option (completion bool);
  openSelectKey : option (completion unit)
}.

Record Env := {
  ai : GeminiService.Service;
  loadImage : string -> completion (N * N);   (* width and height *)
  aistudio : option AiStudio;
  canvasContext : bool;                       (* getContext('2d') is not null *)
  isTypeSupported : string -> bool;
  zipError : list (string * string) -> option string;  (* generateAsync *)
  now : N                                     (* Date.now() *)
}.

(** ** handleImageSelect *)

Definition handleImageSelect (base64 : string) (w : World) : World :=
  setStatus (fun _ => initial_status)
    (setGeneratedFrames [] (setOriginalImage (Some base64) w)).

(** ** handleGenerate *)

Record Item := { index : nat; frame : string }.

Definition by_index (a b : Item) : Z := Z.of_nat (index a) - Z.of_nat (index b).

Definition sorted_frames (results : list Item) : list string :=
  map frame (sort by_index results).

(** The order the comparator stands for. *)
Definition index_le (a b : Item) : Prop := (index a <= index b)%nat.

Definition handleGenerate (env : Env) (order : list nat) (w : World) : World :=
  match originalImage (ui w) with
  | Some img =>
      if truthy_string img then
        let description := promptDescription (ui w) in
        let direction := selectedDirection (ui w) in
        let w1 :=
          setGeneratedFrames []
            (setStatus (fun _ => {| isGenerating := true; completedFrames := 0;
                                    totalFrames := TOTAL_FRAMES; error := None |}) w) in
        Async.run
          (setStatus bump)
          (fun p frame => {| index := p + 1; frame := frame |})
          (fun results w' =>
             setStatus not_generating
               (setGeneratedFrames (img :: sorted_frames results) w'))
          (fun _ w' => setStatus generation_failed w')
          (fun p => GeminiService.generateMotionFrame (ai env) img (p + 1)
                      TOTAL_FRAMES description direction)
          TOTAL_FRAMES order w1
      else w
  | None => w
  end.

(** ** getClosestAspectRatio *)

Record Ratio := { id : string; val : number }.

Definition supportedRatios : list Ratio :=
  [ {| id := "1:1"; val := decimal 10 1 |};
    {| id := "3:4"; val := decimal 75 2 |};
    {| id := "4:3"; val := decimal 1333 3 |};
    {| id := "9:16"; val := decimal 5625 4 |};
    {| id := "16:9"; val := decimal 1778 3 |} ].

Definition distance (ratio : number) (c : Ratio) : number :=
  num_abs (num_sub (val c) ratio).

(** The callback of [reduce]. *)
Definition closer (ratio : number) (prev curr : Ratio) : Ratio :=
  if num_lt (distance ratio curr) (distance ratio prev) then curr else prev.

Definition closest (ratio : number) : completion Ratio :=
  reduce (closer ratio) supportedRatios.

Definition measured_ratio (dims : N * N) : number :=
  num_div (of_int (Z.of_N (fst dims))) (of_int (Z.of_N (snd dims))).

Definition getClosestAspectRatio (env : Env) (imgSrc : string) : completion string :=
  match loadImage env imgSrc with
  | Throw e => Throw e
  | Return dims =>
      match closest (measured_ratio dims) with
      | Throw e => Throw e
      | Return c => Return (id c)
      end
  end.

(** ** handleUpscale *)

Definition upscale_failed_msg : string :=
  "Upscale failed. Please check your API key quotas or try again.".

(** The key check before the [try]: [false] when the handler stops there
    (a rejected [hasSelectedApiKey] leaves the handler, a rejected
    [openSelectKey] is caught and returns). *)
Definition key_stage (env : Env) : bool :=
  match aistudio env with
  | Some studio =>
      match hasSelectedApiKey studio with
      | Some (Return hasKey) =>
          if negb hasKey then
            match openSelectKey studio with
            | Some (Throw _) => false
            | _ => true
            end
          else true
      | Some (Throw _) => false
      | None => true
      end
  | None => true
  end.

(** The [finally] block. *)
Definition upscale_finally (w : World) : World :=
  setStatus not_generating (setIsUpscaling false w).

(** The [catch] block followed by [finally]. *)
Definition upscale_failed (w : World) : World :=
  upscale_finally (alert upscale_failed_msg w).

Definition handleUpscale (env : Env) (order : list nat) (w : World) : World :=
  let frames := generatedFrames (ui w) in
  if (length frames =? 0)%nat then w
  else if negb (key_stage env) then w
  else
    let w1 := setStatus (restart_count (length frames)) (setIsUpscaling true w) in
    match getClosestAspectRatio env (default "" (frames !! 0%nat)) with
    | Throw _ => upscale_failed w1
    | Return aspectRatio =>
        Async.run
          (setStatus bump)
          (fun p upscaled => {| index := p; frame := upscaled |})
          (fun results w' =>
             upscale_finally (setGeneratedFrames (sorted_frames results) w'))
          (fun _ w' => upscale_failed w')
          (fun p => GeminiService.upscaleFrame (ai env)
                      (default "" (frames !! p)) aspectRatio)
          (length frames) order w1
    end.

(** ** handleDownloadVideo *)

Definition video_unsupported_msg : string :=
  "Video recording not supported on this browser. Please try downloading frames as ZIP.".

Definition video_failed_msg : string := "Failed to create video.".

(** The drawing loop: each frame is loaded, drawn, and held for 250 ms. *)
Fixpoint draw_frames (env : Env) (frames : list string)
  : completion (list (string * nat)) :=
  match frames with
  | [] => Return []
  | f :: fs =>
      match loadImage env f with
      | Throw e => Throw e
      | Return _ =>
          match draw_frames env fs with
          | Throw e => Throw e
          | Return shown => Return ((f, 250) :: shown)
          end
      end
  end.

Definition pick_mime (env : Env) : option string :=
  if isTypeSupported env "video/webm" then Some "video/webm"
  else if isTypeSupported env "video/mp4" then Some "video/mp4"
  else None.

Definition video_filename (env : Env) (mime : string) : string :=
  "motion-gen-" +:+ String_of (now env) +:+ "."
  +:+ (if String.eqb mime "video/mp4" then "mp4" else "webm").

(** The [catch] block. *)
Definition video_failed (w : World) : World :=
  alert video_failed_msg (setIsDownloading false w).

Definition handleDownloadVideo (env : Env) (w : World) : World :=
  let frames := generatedFrames (ui w) in
  if (length frames =? 0)%nat then w
  else
    let w1 := setIsDownloading true w in
    if negb (canvasContext env) then video_failed w1
    else
      match loadImage env (default "" (frames !! 0%nat)) with
      | Throw _ => video_failed w1
      | Return _ =>
          match pick_mime env with
          | None => setIsDownloading false (alert video_unsupported_msg w1)
          | Some mime =>
              match draw_frames env frames with
              | Throw _ => video_failed w1
              | Return shown =>
                  (* [recorder.stop()] fires [onstop] *)
                  setIsDownloading false
                    (download (video_filename env mime) (VideoBlob mime shown) w1)
              end
          end
      end.

(** ** handleDownloadZip *)

(** [/^data:image\/\w+;base64,/] *)
Definition data_url_prefix : list re :=
  [Lit "data:image/"; WordPlus; Lit ";base64,"].

(** [zip.file(name, data)]: one entry per name; a second call with the
    same name replaces the entry. *)
Definition zip_file (name data : string) (zip : list (string * string))
  : list (string * string) :=
  if existsb (fun e => String.eqb (fst e) name) zip
  then map (fun e => if String.eqb (fst e) name then (name, data) else e) zip
  else zip ++ [(name, data)].

Definition frame_filename (index : nat) : string :=
  "frame_" +:+ padStart (String_of (N.of_nat (index + 1))) 3 "0" +:+ ".png".

(** [arr.forEach((x, i) => ...)] from index [i] on. *)
Fixpoint forEach {A S} (f : A -> nat -> S -> S) (l : list A) (i : nat) (s : S) : S :=
  match l with
  | [] => s
  | x :: l' => forEach f l' (i + 1) (f x i s)
  end.

Definition archive (frames : list string) : list (string * string) :=
  forEach
    (fun frame index zip =>
       let data := replace_start data_url_prefix frame in
       let filename := frame_filename index in
       zip_file filename data zip)
    frames 0 [].

Definition zip_failed_msg : string := "Failed to create ZIP archive.".

Definition zip_filename (env : Env) : string :=
  "motion-gen-frames-" +:+ String_of (now env) +:+ ".zip".

Definition handleDownloadZip (env : Env) (w : World) : World :=
  let frames := generatedFrames (ui w) in
  if (length frames =? 0)%nat then w
  else
    let w1 := setIsDownloading true w in
    let zip := archive frames in
    match zipError env zip with
    | None =>
        setIsDownloading false (download (zip_filename env) (ZipBlob zip) w1)
    | Some _ =>
        setIsDownloading false (alert zip_failed_msg w1)
    end.

(** ** Vocabulary of the properties *)

(** [n] in decimal, zero-padded to three digits. *)
Definition ordinal3 (n : N) : string :=
  (if (n <? 10)%N then "00" else if (n <? 100)%N then "0" else "")
  +:+ String_of n.

(** The entry the loop adds for the frame at position [i]. *)
Definition entry (i : nat) (frame : string) : string * string :=
  (frame_filename i, replace_start data_url_prefix frame).

(** The name meant for the frame at position [i]. *)
Definition expected_name (i : nat) : string :=
  "frame_" +:+ ordinal3 (N.of_nat (i + 1)) +:+ ".png".

(** A base64 payload behind a data-URL prefix of the given subtype, and
    subtypes made of word characters only. *)
Definition data_url (subtype base64 : string) : string :=
  "data:image/" +:+ subtype +:+ ";base64," +:+ base64.

Fixpoint all_word (s : string) : bool :=
  match s with
  | EmptyString => true
  | String c s' => is_word_char c && all_word s'
  end.

(** The five aspect-ratio labels the service supports. *)
Definition labels : list string := ["1:1"; "3:4"; "4:3"; "9:16"; "16:9"].

(** The order in which [closest] compares two candidates. *)
Definition nearer (ratio : number) (a b : Ratio) : bool :=
  num_lt (distance ratio a) (distance ratio b).

(** The candidates with the decimal values the selection gives them, in
    the order in which they are met; the absolute difference of two
    doubles; the measured ratio of an image, width over height, as a
    double. *)
Definition valued_candidates : list (string * number) :=
  [ ("1:1", decimal 10 1); ("3:4", decimal 75 2); ("4:3", decimal 1333 3);
    ("9:16", decimal 5625 4); ("16:9", decimal 1778 3) ].

Definition abs_difference (x y : number) : number := num_abs (num_sub x y).

Definition width_over_height (width height : N) : number :=
  num_div (of_int (Z.of_N width)) (of_int (Z.of_N height)).

(** The ratio a label names: ["4:3"] is four thirds, exactly. *)
Fixpoint split_colon (s : string) : option (string * string) :=
  match s with
  | EmptyString => None
  | String c s' =>
      if Ascii.eqb c ":" then Some (EmptyString, s')
      else match split_colon s' with
           | Some (a, b) => Some (String c a, b)
           | None => None
           end
  end.

Definition named_ratio (label : string) : Q :=
  match split_colon label with
  | Some (a, b) =>
      match decimal_value a, decimal_value b with
      | Some x, Some (Npos y) => Z.of_N x # y
      | _, _ => 0
      end
  | None => 0
  end.

(** The distance of the ratio a label names from the ratio of a
    [width] x [height] image, in exact arithmetic, and the label the
    selection would give if the candidates were the named ratios: the
    first of the list at minimum distance. *)
Definition named_distance (width height : positive) (label : string) : Q :=
  Qabs (named_ratio label - (Zpos width # height)).

Definition Q_lt (x y : Q) : bool :=
  match (x ?= y)%Q with
  | Lt => true
  | _ => false
  end.

Definition nearest_named (width height : positive) : completion string :=
  reduce (pick (fun a b => Q_lt (named_distance width height a)
                                (named_distance width height b)))
         labels.

End App.

(* ===================================================================== *)
(** * components/ImageUploader.tsx                                        *)
(* ===================================================================== *)

Module Uploader.
Import JS App.

(** A file as far as the component looks at it: its MIME type and its
    bytes, here in base64. *)
Record File := { type : string; content : string }.

(** The result of [FileReader.readAsDataURL] when the read succeeds. *)
Definition dataURL (file : File) : string :=
  "data:" +:+ type file +:+ ";base64," +:+ content file.

Definition not_image_msg : string := "Please upload an image file.".

(** [onImageSelect(reader.result as string)]: [onloadend] also fires when
    the read fails, and [reader.result] is then [null]; the three setters
    of [handleImageSelect] run all the same. *)
Definition onImageSelect (result : option string) (w : World) : World :=
  match result with
  | Some base64 => handleImageSelect base64 w
  | None =>
      setStatus (fun _ => initial_status)
        (setGeneratedFrames [] (setOriginalImage None w))
  end.

(** [processFile]; [readable] tells whether the browser can read the
    file. *)
Definition processFile (readable : bool) (file : File) (w : World) : World :=
  if negb (startsWith (type file) "image/") then alert not_image_msg w
  else onImageSelect (if readable then Some (dataURL file) else None) w.

(** [handleFileChange]: [event.target.files?.[0]] may be missing. *)
Definition handleFileChange (readable : bool) (file : option File) (w : World) : World :=
  match file with
  | Some f => processFile readable f w
  | None => w
  end.

(** The drag handlers; the component's own state is [isDragging]. *)
Definition handleDragOver (isDragging : bool) : bool := true.
Definition handleDragLeave (isDragging : bool) : bool := false.

Definition handleDrop (readable : bool) (file : option File)
    (st : bool * World) : bool * World :=
  (false,
   match file with
   | Some f => processFile readable f (snd st)
   | None => snd st
   end).

End Uploader.

(* ===================================================================== *)
(** * App.tsx: what the rendered page lets the user do                    *)
(* ===================================================================== *)

Module Session.
Import JS App.

(** [DIRECTION_OPTIONS]: id and label of each button. *)
Definition DIRECTION_OPTIONS : list (string * string) :=
  [ ("Left", "Left"); ("Right", "Right"); ("Up", "Up"); ("Down", "Down");
    ("Zoom In", "Closer"); ("Zoom Out", "Farther") ].

Definition direction_ids : list string := map fst DIRECTION_OPTIONS.

Definition setPromptDescription (v : string) : World -> World :=
  with_ui (fun s =>
    {| originalImage := originalImage s; generatedFrames := generatedFrames s;
       promptDescription := v;
       selectedDirection := selectedDirection s; status := status s;
       isDownloading := isDownloading s; isUpscaling := isUpscaling s |}).

Definition setSelectedDirection (v : string) : World -> World :=
  with_ui (fun s =>
    {| originalImage := originalImage s; generatedFrames := generatedFrames s;
       promptDescription := promptDescription s;
       selectedDirection := v; status := status s;
       isDownloading := isDownloading s; isUpscaling := isUpscaling s |}).

(** The [disabled] attributes. *)
Definition settings_disabled (w : World) : bool :=
  isGenerating (status (ui w)) || isUpscaling (ui w).

Definition generate_disabled (w : World) : bool :=
  negb (truthy (originalImage (ui w)))
  || isGenerating (status (ui w)) || isUpscaling (ui w).

Definition actions_disabled (w : World) : bool :=
  isDownloading (ui w) || isUpscaling (ui w) || isGenerating (status (ui w)).

(** The three action buttons are rendered only under
    [generatedFrames.length > 0]. *)
Definition actions_rendered (w : World) : bool :=
  (0 <? length (generatedFrames (ui w)))%nat.

(** What the user does.  A click on generate or upscale comes with the
    browser and service it runs against and with the order in which its
    requests settle; requests missing from the order never settle. *)
Inductive event : Type :=
| Upload (readable : bool) (file : option Uploader.File)
| EditPrompt (text : string)
| ChooseDirection (k : nat)
| ClickGenerate (env : Env) (order : list nat)
| ClickUpscale (env : Env) (order : list nat)
| ClickDownloadVideo (env : Env)
| ClickDownloadZip (env : Env).

Definition step (w : World) (ev : event) : World :=
  match ev with
  | Upload readable file => Uploader.handleFileChange readable file w
  | EditPrompt text =>
      if settings_disabled w then w else setPromptDescription text w
  | ChooseDirection k =>
      if settings_disabled w then w
      else
        match DIRECTION_OPTIONS !! k with
        | Some dir => setSelectedDirection (fst dir) w
        | None => w
        end
  | ClickGenerate env order =>
      if generate_disabled w then w else handleGenerate env order w
  | ClickUpscale env order =>
      if actions_rendered w && negb (actions_disabled w)
      then handleUpscale env order w else w
  | ClickDownloadVideo env =>
      if actions_rendered w && negb (actions_disabled w)
      then handleDownloadVideo env w else w
  | ClickDownloadZip env =>
      if actions_rendered w && negb (actions_disabled w)
      then handleDownloadZip env w else w
  end.

Definition run (evs : list event) : World := fold_left step evs initial.

(** ** Vocabulary of the properties *)

(** The sequence is empty or holds the seed and [TOTAL_FRAMES] frames. *)
Definition full_or_empty (w : World) : Prop :=
  generatedFrames (ui w) = [] \/
  length (generatedFrames (ui w)) = TOTAL_FRAMES + 1.

(** Every frame behind the first is a PNG data URL. *)
Definition is_png_url (s : string) : Prop :=
  exists d, s = GeminiService.png_prefix +:+ d.

Definition generated_are_png (w : World) : Prop :=
  Forall is_png_url (tail (generatedFrames (ui w))).

End Session.

(* ===================================================================== *)
(** * Vocabulary of the export properties                                 *)
(* ===================================================================== *)

Module Exports.
Import JS App.

(** Every frame, in order, held for 250 ms. *)
Definition slideshow (frames : list string) : list (string * nat) :=
  map (fun f => (f, 250)) frames.

(** Can the browser decode every frame? *)
Definition all_load (env : Env) (frames : list string) : bool :=
  forallb (fun f => succeeded (loadImage env f)) frames.

(** The container the recording would use, if a recording is possible at
    all: a 2d context, decodable frames, a supported container. *)
Definition recording (env : Env) (frames : list string) : option string :=
  if canvasContext env && all_load env frames then pick_mime env else None.

(** The alert of a video export that produces nothing: the missing
    container is reported when the context exists and the first frame
    decodes, before the other frames are looked at. *)
Definition video_alert (env : Env) (frames : list string) : string :=
  match frames, pick_mime env with
  | f :: _, None =>
      if canvasContext env && succeeded (loadImage env f)
      then video_unsupported_msg else video_failed_msg
  | _, _ => video_failed_msg
  end.

End Exports.

(* ===================================================================== *)
(** * Sample services, browsers and states                                *)
(* ===================================================================== *)

Module Samples.
Import JS GeminiService App.

Definition image_part (d : string) : Part :=
  {| text := None;
     inlineData := Some {| data := Some d; mimeType := Some "image/png" |} |}.

Definition text_part (t : string) : Part :=
  {| text := Some t; inlineData := None |}.

Definition response_of (ps : list Part) : Response :=
  {| candidates := Some [ {| content := Some {| parts := Some ps |} |} ] |}.

(** A model that answers every request with a picture; the payload names
    the request. *)
Definition painter : Service := fun req =>
  Return (response_of
    [ text_part "Here is the frame.";
      image_part
        match prompt req with
        | MotionPrompt i _ _ _ => "FRAME" +:+ String_of (N.of_nat i)
        | UpscalePrompt => "UP" +:+ imageData req
        end ]).

(** A model that only ever answers with text. *)
Definition chatty : Service := fun _ =>
  Return (response_of [text_part "I cannot draw this."]).

(** [painter], except that motion request [k] is refused. *)
Definition flaky (k : nat) : Service := fun req =>
  match prompt req with
  | MotionPrompt i _ _ _ =>
      if (i =? k)%nat then Throw "429 Too Many Requests" else painter req
  | UpscalePrompt => painter req
  end.

(** [painter], except that upscaling the payload [bad] is refused. *)
Definition picky (bad : string) : Service := fun req =>
  match prompt req with
  | UpscalePrompt =>
      if String.eqb (imageData req) bad then Throw "429 Too Many Requests"
      else painter req
  | MotionPrompt _ _ _ _ => painter req
  end.

Definition browser (model : Service) : Env :=
  {| ai := model;
     loadImage := fun _ => Return (1920%N, 1080%N);
     aistudio := None;
     canvasContext := true;
     isTypeSupported := fun m => String.eqb m "video/webm";
     zipError := fun _ => None;
     now := 1700000000000%N |}.

(** [browser], showing images of the given size. *)
Definition sized (width height : N) (model : Service) : Env :=
  {| ai := model;
     loadImage := fun _ => Return (width, height);
     aistudio := None;
     canvasContext := true;
     isTypeSupported := fun m => String.eqb m "video/webm";
     zipError := fun _ => None;
     now := 1700000000000%N |}.

Definition jpeg_seed : string := "data:image/jpeg;base64,/9j/4AAQ".
Definition svg_seed : string := "data:image/svg+xml;base64,PHN2Zy8+".

(** A state that shows an earlier three-frame sequence. *)
Definition showing : World :=
  setGeneratedFrames
    [jpeg_seed; "data:image/png;base64,AAAA"; "data:image/png;base64,BBBB"]
    (handleImageSelect jpeg_seed initial).

(** Requests settling in the order in which they were issued, and in the
    reverse order. *)
Definition in_order (n : nat) : list nat := seq 0 n.
Definition reversed (n : nat) : list nat := rev (seq 0 n).

(** Files a user may pick. *)
Definition photo : Uploader.File :=
  {| Uploader.type := "image/jpeg"; Uploader.content := "/9j/4AAQ" |}.
Definition animation : Uploader.File :=
  {| Uploader.type := "image/gif"; Uploader.content := "R0lGODlh" |}.
Definition notes : Uploader.File :=
  {| Uploader.type := "text/plain"; Uploader.content := "aGVsbG8=" |}.

(** A browser that records MP4 only, and one that records nothing. *)
Definition safari (model : Service) : Env :=
  {| ai := model;
     loadImage := fun _ => Return (1920%N, 1080%N);
     aistudio := None;
     canvasContext := true;
     isTypeSupported := fun m => String.eqb m "video/mp4";
     zipError := fun _ => None;
     now := 1700000000000%N |}.

Definition no_recorder (model : Service) : Env :=
  {| ai := model;
     loadImage := fun _ => Return (1920%N, 1080%N);
     aistudio := None;
     canvasContext := true;
     isTypeSupported := fun _ => false;
     zipError := fun _ => None;
     now := 1700000000000%N |}.

(** A browser in which the user dismisses the key dialog. *)
Definition key_refused (model : Service) : Env :=
  {| ai := model;
     loadImage := fun _ => Return (1920%N, 1080%N);
     aistudio := Some {| hasSelectedApiKey := Some (Return false);
                         openSelectKey := Some (Throw "dismissed") |};
     canvasContext := true;
     isTypeSupported := fun m => String.eqb m "video/webm";
     zipError := fun _ => None;
     now := 1700000000000%N |}.

(** [browser], with an archiver that refuses base64 entries which still
    look like a data URL, as JSZip does. *)
Definition strict_archiver (model : Service) : Env :=
  {| ai := model;
     loadImage := fun _ => Return (1920%N, 1080%N);
     aistudio := None;
     canvasContext := true;
     isTypeSupported := fun m => String.eqb m "video/webm";
     zipError := fun zip =>
       if existsb (fun e => startsWith (snd e) "data:") zip
       then Some "Invalid base64 input, it looks like a data url."
       else None;
     now := 1700000000000%N |}.

(** The state after an SVG upload and a generation in which [painter]
    answers all ten requests. *)
Definition svg_sequence : World :=
  handleGenerate (browser painter) (in_order 10) (handleImageSelect svg_seed initial).

(** A response whose image comes after a text part and an empty image
    part, and one whose only image sits in the second candidate. *)
Definition late_image : Response :=
  response_of
    [ text_part "Here is the frame.";
      {| text := None;
         inlineData := Some {| data := Some ""; mimeType := Some "image/png" |} |};
      image_part "FIRST"; image_part "SECOND" ].

Definition second_candidate : Response :=
  {| candidates :=
       Some [ {| content := Some {| parts := Some [text_part "No."] |} |};
              {| content := Some {| parts := Some [image_part "HIDDEN"] |} |} ] |}.

End Samples.

(* ===================================================================== *)
(** * Properties                                                          *)
(* ===================================================================== *)

(** ** Facts about binary64 comparisons and subtraction *)

Module NumberFacts.
Import JS.

Lemma shr_1_nonneg mrs : (0 <= shr_m mrs)%Z -> (0 <= shr_m (shr_1 mrs))%Z.
Proof.
  destruct mrs as [m r s]; simpl.
  destruct m as [|p|p]; simpl; try lia; destruct p; simpl; lia.
Qed.

Lemma iter_shr_1_nonneg p : forall mrs,
  (0 <= shr_m mrs)%Z -> (0 <= shr_m (SpecFloat.iter_pos shr_1 p mrs))%Z.
Proof.
  induction p as [p IH|p IH|]; intros mrs H; simpl.
  - apply IH, IH, shr_1_nonneg, H.
  - apply IH, IH, H.
  - apply shr_1_nonneg, H.
Qed.

Lemma shr_record_of_loc_m m l : shr_m (shr_record_of_loc m l) = m.
Proof. destruct l as [|[]]; reflexivity. Qed.

Lemma shr_fexp_nonneg prec emax m e l :
  (0 <= m)%Z -> (0 <= shr_m (fst (shr_fexp prec emax m e l)))%Z.
Proof.
  intros H. unfold shr_fexp, shr.
  destruct (_ - e)%Z; simpl; rewrite ?shr_record_of_loc_m; try exact H.
  apply iter_shr_1_nonneg. rewrite shr_record_of_loc_m. exact H.
Qed.

Lemma round_nearest_even_nonneg m l :
  (0 <= m)%Z -> (0 <= round_nearest_even m l)%Z.
Proof.
  intros H. destruct l as [|[]]; simpl; try lia.
  destruct (Z.even m); lia.
Qed.

Lemma binary_round_aux_not_nan prec emax sx mx ex lx :
  (0 <= mx)%Z -> is_nan (binary_round_aux prec emax sx mx ex lx) = false.
Proof.
  intros H. unfold binary_round_aux.
  pose proof (shr_fexp_nonneg prec emax mx ex lx H) as H1.
  destruct (shr_fexp prec emax mx ex lx) as [mrs' e']. simpl in H1.
  pose proof (shr_fexp_nonneg prec emax _ e' loc_Exact
                (round_nearest_even_nonneg _ (loc_of_shr_record mrs') H1)) as H2.
  destruct (shr_fexp prec emax _ e' loc_Exact) as [mrs'' e'']. simpl in H2.
  destruct (shr_m mrs'') as [|p|p]; [reflexivity| |lia].
  destruct (e'' <=? emax - prec)%Z; reflexivity.
Qed.

Lemma binary_round_not_nan prec emax sx mx ex :
  is_nan (binary_round prec emax sx mx ex) = false.
Proof.
  unfold binary_round. destruct (shl_align _ _ _) as [mz ez].
  apply binary_round_aux_not_nan. lia.
Qed.

Lemma binary_normalize_not_nan prec emax m e sz :
  is_nan (binary_normalize prec emax m e sz) = false.
Proof.
  destruct m; simpl; [reflexivity | apply binary_round_not_nan ..].
Qed.

(** Subtracting from a finite number gives NaN exactly when the
    subtrahend is NaN. *)
Lemma num_sub_finite_nan s m e y :
  is_nan (num_sub (S754_finite s m e) y) = is_nan y.
Proof.
  unfold num_sub. destruct y as [sy|sy| |sy my ey]; try reflexivity.
  unfold SFsub. apply binary_normalize_not_nan.
Qed.

Lemma num_abs_nan x : is_nan (num_abs x) = is_nan x.
Proof. destruct x; reflexivity. Qed.

Lemma num_lt_nan_l x y : is_nan x = true -> num_lt x y = false.
Proof. destruct x; try discriminate. reflexivity. Qed.

Lemma num_lt_nan_r x y : is_nan y = true -> num_lt x y = false.
Proof. destruct y; try discriminate. destruct x; reflexivity. Qed.

(** On magnitudes that are not NaN, [<] is a strict weak order. *)

Ltac cmp_cases :=
  repeat match goal with
  | |- context [Z.compare ?a ?b] => destruct (Z.compare_spec a b); subst
  | |- context [Pos.compare_cont Eq ?a ?b] =>
      change (Pos.compare_cont Eq a b) with (Pos.compare a b);
      destruct (Pos.compare_spec a b); subst
  | H : context [Z.compare ?a ?b] |- _ => destruct (Z.compare_spec a b); subst
  | H : context [Pos.compare_cont Eq ?a ?b] |- _ =>
      change (Pos.compare_cont Eq a b) with (Pos.compare a b) in H;
      destruct (Pos.compare_spec a b); subst
  end.

Lemma abs_lt_asym a b :
  num_lt (num_abs a) (num_abs b) = true -> num_lt (num_abs b) (num_abs a) = false.
Proof.
  unfold num_lt, num_abs, SFltb.
  destruct a as [sa|sa| |sa ma ea], b as [sb|sb| |sb mb eb]; simpl;
    try discriminate; try reflexivity.
  intros H. cmp_cases; try discriminate; try reflexivity; lia.
Qed.

Lemma abs_lt_negtrans a b c :
  is_nan b = false ->
  num_lt (num_abs a) (num_abs c) = true ->
  num_lt (num_abs a) (num_abs b) = true \/ num_lt (num_abs b) (num_abs c) = true.
Proof.
  unfold num_lt, num_abs, SFltb.
  destruct a as [sa|sa| |sa ma ea], b as [sb|sb| |sb mb eb],
           c as [sc|sc| |sc mc ec]; simpl;
    try discriminate; intros _ H; try discriminate; auto.
  cmp_cases; try discriminate; auto; lia.
Qed.

End NumberFacts.

(** ** [reduce] with a "keep the strictly smaller" callback *)

Module ReduceFacts.
Local Open Scope list_scope.

Section FirstMinimum.
Context {A : Type}.
Variable lt : A -> A -> bool.
Variable universe : list A.

Hypothesis lt_asym : forall a b, lt a b = true -> lt b a = false.
Hypothesis lt_negtrans : forall a b c,
  b ∈ universe -> lt a c = true -> lt a b = true \/ lt b c = true.

Lemma fold_pick_first_min l : forall pre best mid,
  (forall c, c ∈ pre ++ best :: mid ++ l -> c ∈ universe) ->
  (forall c, c ∈ pre -> lt best c = true) ->
  (forall c, c ∈ mid -> lt c best = false) ->
  exists pre' post',
    JS.first_min lt (pre ++ best :: mid ++ l) (fold_left (JS.pick lt) l best) pre' post'.
Proof.
  induction l as [|curr l IH]; intros pre best mid Hu Hpre Hmid; simpl.
  - exists pre, mid. rewrite app_nil_r. repeat split; assumption.
  - unfold JS.pick at 2. destruct (lt curr best) eqn:Hlt.
    + destruct (IH (pre ++ best :: mid) curr []) as (pre' & post' & Heq & H1 & H2).
      * intros c Hc. apply Hu. revert Hc. rewrite <- !app_assoc. simpl. tauto.
      * intros c Hc.
        assert (Hcu : c ∈ universe).
        { apply Hu. revert Hc. rewrite !elem_of_app, !elem_of_cons, !elem_of_app.
          tauto. }
        rewrite elem_of_app, elem_of_cons in Hc.
        destruct Hc as [Hc|[->|Hc]]; [|exact Hlt|];
          (destruct (lt_negtrans curr c best Hcu Hlt) as [Hc'|Hc']; [exact Hc'|]).
        -- apply Hpre, lt_asym in Hc. congruence.
        -- apply Hmid in Hc. congruence.
      * intros c Hc. apply elem_of_nil in Hc. destruct Hc.
      * exists pre', post'. repeat split; try assumption.
        rewrite <- Heq, <- !app_assoc. reflexivity.
    + destruct (IH pre best (mid ++ [curr])) as (pre' & post' & Heq & H1 & H2).
      * intros c Hc. apply Hu. revert Hc. rewrite <- !app_assoc. simpl. tauto.
      * exact Hpre.
      * intros c Hc. rewrite elem_of_app, list_elem_of_singleton in Hc.
        destruct Hc as [Hc| ->]; [apply Hmid, Hc | exact Hlt].
      * exists pre', post'. repeat split; try assumption.
        rewrite <- Heq, <- !app_assoc. reflexivity.
Qed.

Lemma reduce_pick_first_min x l :
  (forall c, c ∈ x :: l -> c ∈ universe) ->
  exists r pre post,
    JS.reduce (JS.pick lt) (x :: l) = JS.Return r /\ JS.first_min lt (x :: l) r pre post.
Proof.
  intros Hu.
  destruct (fold_pick_first_min l [] x []) as (pre & post & H).
  - exact Hu.
  - intros c Hc. apply elem_of_nil in Hc. destruct Hc.
  - intros c Hc. apply elem_of_nil in Hc. destruct Hc.
  - exists (fold_left (JS.pick lt) l x), pre, post. split; [reflexivity | exact H].
Qed.
End FirstMinimum.

End ReduceFacts.

(** ** Aspect-ratio selection *)

Module AspectRatio.
Import JS NumberFacts App.
Local Open Scope list_scope.

Lemma supported_finite c :
  c ∈ supportedRatios -> exists s m e, val c = S754_finite s m e.
Proof.
  unfold supportedRatios. rewrite !elem_of_cons, elem_of_nil.
  intros [->|[->|[->|[->|[->|[]]]]]];
    eexists _, _, _; vm_compute; reflexivity.
Qed.

Lemma distance_nan ratio c :
  c ∈ supportedRatios -> is_nan (distance ratio c) = is_nan ratio.
Proof.
  intros Hc. destruct (supported_finite c Hc) as (s & m & e & Hval).
  unfold distance. rewrite num_abs_nan, Hval. apply num_sub_finite_nan.
Qed.

Lemma distance_nan_ratio ratio c : is_nan ratio = true -> is_nan (distance ratio c) = true.
Proof.
  destruct ratio; try discriminate. intros _.
  unfold distance, num_sub. destruct (val c); reflexivity.
Qed.

Lemma nearer_asym ratio a b : nearer ratio a b = true -> nearer ratio b a = false.
Proof. apply abs_lt_asym. Qed.

Lemma nearer_negtrans ratio a b c :
  b ∈ supportedRatios ->
  nearer ratio a c = true -> nearer ratio a b = true \/ nearer ratio b c = true.
Proof.
  intros Hb H. destruct (is_nan ratio) eqn:Hnan.
  - unfold nearer in H.
    rewrite (num_lt_nan_l _ _ (distance_nan_ratio ratio a Hnan)) in H. discriminate.
  - apply abs_lt_negtrans; [|exact H].
    destruct (supported_finite b Hb) as (s & m & e & Hval).
    rewrite Hval, num_sub_finite_nan. exact Hnan.
Qed.

Lemma closer_pick ratio : closer ratio = pick (nearer ratio).
Proof. reflexivity. Qed.

Lemma valued_candidates_supported :
  valued_candidates = (fun c => (id c, val c)) <$> supportedRatios.
Proof. reflexivity. Qed.

Lemma measured_width_over_height width height :
  measured_ratio (width, height) = width_over_height width height.
Proof. reflexivity. Qed.

(** C3. When the first frame loads with a given width and height, the
    selection returns one label, one of the five.  With the candidates
    valued 1.0, 0.75, 1.333, 0.5625 and 1.778 and differences taken in
    double precision, no candidate has a smaller absolute difference from
    width / height than the returned one, and every candidate met before
    it has a strictly greater one: the returned label is the first
    candidate at minimum absolute difference. *)
Theorem closest_is_first_minimum (env : Env) (imgSrc : string) (width height : N) :
  loadImage env imgSrc = Return (width, height) ->
  exists pre label value post,
    getClosestAspectRatio env imgSrc = Return label /\
    valued_candidates = pre ++ (label, value) :: post /\
    label ∈ labels /\
    (forall c, c ∈ valued_candidates ->
       num_lt (abs_difference (snd c) (width_over_height width height))
              (abs_difference value (width_over_height width height)) = false) /\
    (forall c, c ∈ pre ->
       num_lt (abs_difference value (width_over_height width height))
              (abs_difference (snd c) (width_over_height width height)) = true).
Proof.
  intros Hload.
  rewrite <- measured_width_over_height.
  set (ratio := measured_ratio (width, height)).
  destruct (ReduceFacts.reduce_pick_first_min (nearer ratio) supportedRatios
              (nearer_asym ratio) (nearer_negtrans ratio)
              (hd {| id := ""; val := S754_nan |} supportedRatios)
              (tl supportedRatios))
    as (c & pre & post & Hred & Heq & Hpre & Hpost).
  { intros c' Hc'. exact Hc'. }
  change (hd _ supportedRatios :: tl supportedRatios) with supportedRatios in *.
  exists ((fun c => (id c, val c)) <$> pre), (id c), (val c),
         ((fun c => (id c, val c)) <$> post).
  split.
  { unfold getClosestAspectRatio, closest. rewrite Hload.
    fold ratio. rewrite closer_pick, Hred. reflexivity. }
  split.
  { rewrite valued_candidates_supported, Heq, fmap_app. reflexivity. }
  split.
  { change (id c ∈ id <$> supportedRatios).
    apply (list_elem_of_fmap_2 id). rewrite Heq, elem_of_app, elem_of_cons. auto. }
  split.
  - intros c0 Hc0. rewrite valued_candidates_supported in Hc0.
    apply list_elem_of_fmap in Hc0 as (c' & -> & Hc'). simpl.
    change (nearer ratio c' c = false).
    rewrite Heq, elem_of_app, elem_of_cons in Hc'.
    destruct Hc' as [Hc'|[->|Hc']].
    + apply (nearer_asym ratio), Hpre, Hc'.
    + destruct (nearer ratio c c) eqn:Hcc; [|reflexivity].
      pose proof (nearer_asym _ _ _ Hcc). congruence.
    + apply Hpost, Hc'.
  - intros c0 Hc0.
    apply list_elem_of_fmap in Hc0 as (c' & -> & Hc'). simpl.
    apply Hpre, Hc'.
Qed.

Lemma closest_is_first_minimum_witness :
  exists pre label value post,
    getClosestAspectRatio (Samples.browser Samples.painter) Samples.jpeg_seed
      = Return label /\
    valued_candidates = pre ++ (label, value) :: post /\
    label ∈ labels /\
    (forall c, c ∈ valued_candidates ->
       num_lt (abs_difference (snd c) (width_over_height 1920 1080))
              (abs_difference value (width_over_height 1920 1080)) = false) /\
    (forall c, c ∈ pre ->
       num_lt (abs_difference value (width_over_height 1920 1080))
              (abs_difference (snd c) (width_over_height 1920 1080)) = true).
Proof.
  exact (closest_is_first_minimum (Samples.browser Samples.painter)
           Samples.jpeg_seed 1920 1080 eq_refl).
Defined.

(** The claim read with the ratios the labels name fails.  A 700x600
    image has ratio 7/6, at distance 1/6 from both 1/1 and 4/3; 1:1 is met
    first and is the nearest named ratio, yet the selection returns 4:3,
    because it values 4:3 at 1.333.  A 1400x900 image has ratio 14/9, at
    distance 2/9 from both 4/3 and 16/9; 4:3 is met first, yet the
    selection returns 16:9. *)
Lemma selection_at_named_midpoints :
  labels = ["1:1"; "3:4"; "4:3"; "9:16"; "16:9"] /\
  named_ratio <$> labels = [1 # 1; 3 # 4; 4 # 3; 9 # 16; 16 # 9] /\
  ((named_distance 700 600 "1:1" == 1 # 6)%Q /\
   (named_distance 700 600 "4:3" == 1 # 6)%Q /\
   Forall (fun label => (1 # 6 <= named_distance 700 600 label)%Q) labels /\
   nearest_named 700 600 = Return "1:1" /\
   getClosestAspectRatio (Samples.sized 700 600 Samples.painter) Samples.jpeg_seed
     = Return "4:3") /\
  ((named_distance 1400 900 "4:3" == 2 # 9)%Q /\
   (named_distance 1400 900 "16:9" == 2 # 9)%Q /\
   Forall (fun label => (2 # 9 <= named_distance 1400 900 label)%Q) labels /\
   nearest_named 1400 900 = Return "4:3" /\
   getClosestAspectRatio (Samples.sized 1400 900 Samples.painter) Samples.jpeg_seed
     = Return "16:9").
Proof.
  split; [reflexivity|].
  split; [reflexivity|].
  split; (split; [vm_compute; reflexivity|]); (split; [vm_compute; reflexivity|]);
    (split; [|split; vm_compute; reflexivity]);
    repeat constructor; vm_compute; discriminate.
Qed.

(** The selection on concrete measurements: a 1920x1080 frame, a ratio
    half-way between two candidates, and an image without dimensions. *)
Example closest_1920_1080 :
  closest (measured_ratio (1920%N, 1080%N)) = Return {| id := "16:9"; val := decimal 1778 3 |}.
Proof. vm_compute. reflexivity. Qed.

Example closest_midpoint :
  closest (decimal 875 3) = Return {| id := "1:1"; val := decimal 10 1 |}.
Proof. vm_compute. reflexivity. Qed.

Example closest_no_dimensions :
  closest (measured_ratio (0%N, 0%N)) = Return {| id := "1:1"; val := decimal 10 1 |}.
Proof. vm_compute. reflexivity. Qed.

End AspectRatio.

(** ** The player *)

Module PlayerSpec.
Import JS Player.
Local Open Scope Z_scope.

Lemma onFramesChange_initial st : run_updates onFramesChange st = initial.
Proof. reflexivity. Qed.

Lemma js_rem_range x L : 0 <= x -> 0 < L -> 0 <= js_rem x L < L.
Proof.
  intros Hx HL. unfold js_rem. rewrite Z.rem_mod_nonneg by lia.
  apply Z.mod_pos_bound, HL.
Qed.

Lemma len_pos (frames : list string) : frames <> [] -> 0 < len frames.
Proof. unfold len. destruct frames; [congruence | simpl; lia]. Qed.

Lemma step_in_range frames st a :
  frames <> [] ->
  0 <= currentIndex st < len frames ->
  0 <= currentIndex (step frames st a) < len frames.
Proof.
  intros Hne Hst. pose proof (len_pos frames Hne) as HL.
  unfold step. destruct (Nat.eqb_spec (length frames) 0) as [_|_]; [exact Hst|].
  destruct a; simpl.
  - apply js_rem_range; lia.
  - apply js_rem_range; lia.
  - destruct (Nat.ltb_spec idx (length frames)); simpl; [unfold len; lia | exact Hst].
  - exact Hst.
  - lia.
  - destruct (isPlaying st && (1 <? length frames)%nat); simpl; [|exact Hst].
    apply js_rem_range; lia.
Qed.

Lemma fold_step_in_range frames acts : forall st,
  frames <> [] ->
  0 <= currentIndex st < len frames ->
  0 <= currentIndex (fold_left (step frames) acts st) < len frames.
Proof.
  induction acts as [|a acts IH]; intros st Hne Hst; simpl; [exact Hst|].
  apply IH; [exact Hne|]. apply step_in_range; assumption.
Qed.

(** C6. For a non-empty sequence of length [L], the index stays in
    [0, L-1] under every action and in every state reached from the
    initial one; next at [L-1] gives [0] and previous at [0] gives
    [L-1]. *)
Theorem index_in_range_and_wraps (frames : list string) (Hne : frames <> []) :
  (forall st a,
     0 <= currentIndex st <= len frames - 1 ->
     0 <= currentIndex (step frames st a) <= len frames - 1) /\
  (forall acts, 0 <= currentIndex (play frames acts) <= len frames - 1) /\
  (forall st, currentIndex st = len frames - 1 ->
     currentIndex (step frames st Next) = 0) /\
  (forall st, currentIndex st = 0 ->
     currentIndex (step frames st Prev) = len frames - 1).
Proof.
  pose proof (len_pos frames Hne) as HL.
  assert (Hlen : (length frames =? 0)%nat = false).
  { apply Nat.eqb_neq. unfold len in HL. lia. }
  repeat split.
  - pose proof (step_in_range frames st a Hne). lia.
  - pose proof (step_in_range frames st a Hne). lia.
  - pose proof (fold_step_in_range frames acts initial Hne) as H.
    unfold play. simpl in H. lia.
  - pose proof (fold_step_in_range frames acts initial Hne) as H.
    unfold play. simpl in H. lia.
  - intros st Hst. unfold step. rewrite Hlen. simpl. rewrite Hst.
    unfold js_rem. replace (len frames - 1 + 1) with (len frames) by lia.
    apply Z.rem_same. lia.
  - intros st Hst. unfold step. rewrite Hlen. simpl. rewrite Hst.
    unfold js_rem. replace (0 - 1 + len frames) with (len frames - 1) by lia.
    apply Z.rem_small. lia.
Qed.

Lemma index_in_range_and_wraps_witness :
  currentIndex (step ["a"; "b"; "c"] {| currentIndex := 2; isPlaying := true |} Next) = 0 /\
  currentIndex (step ["a"; "b"; "c"] {| currentIndex := 0; isPlaying := true |} Prev) = 2 /\
  0 <= currentIndex (play ["a"; "b"; "c"] [Next; PlayPause; Tick; Tick; Tick; Prev]) <= 2.
Proof.
  assert (Hne : ["a"; "b"; "c"] <> @nil string) by discriminate.
  destruct (index_in_range_and_wraps ["a"; "b"; "c"] Hne) as (_ & Hplay & Hnext & Hprev).
  split; [apply Hnext; reflexivity|].
  split; [apply Hprev; reflexivity|].
  apply Hplay.
Defined.

(** C7. Whatever the state, next, previous and thumbnail selection call
    [setIsPlaying(false)] before anything else, and the player is paused
    afterwards. *)
Theorem navigation_pauses_first (frames : list string) (st : PlayerState) (index : Z) :
  Forall
    (fun handler =>
       head handler = Some (SetIsPlaying false) /\
       isPlaying (run_updates handler st) = false)
    [handleNext frames; handlePrev frames; handleThumbnailClick index] /\
  (forall frame rest idx,
     isPlaying (step (frame :: rest) st Next) = false /\
     isPlaying (step (frame :: rest) st Prev) = false /\
     isPlaying (step (frame :: rest) st (Thumbnail idx))
       = if (idx <? length (frame :: rest))%nat then false else isPlaying st).
Proof.
  split.
  - repeat constructor.
  - intros frame rest idx. unfold step.
    change (length (frame :: rest) =? 0)%nat with false. cbv iota.
    repeat split. destruct (idx <? length (frame :: rest))%nat; reflexivity.
Qed.

End PlayerSpec.

(** ** The service wrappers *)

Module ServiceSpec.
Import JS GeminiService.
Local Open Scope list_scope.

Lemma first_image_prefix ps :
  first_image ps = "" \/ exists d, first_image ps = png_prefix +:+ d.
Proof.
  induction ps as [|p ps IH]; simpl; [left; reflexivity|].
  destruct (inlineData p) as [i|]; [|exact IH].
  destruct (truthy (data i)); [|exact IH].
  right. eexists. reflexivity.
Qed.

Lemma first_image_none ps :
  existsb part_has_image ps = false -> first_image ps = "".
Proof.
  induction ps as [|p ps IH]; simpl; [reflexivity|].
  unfold part_has_image at 1. intros H. apply orb_false_iff in H as [Hp Hps].
  destruct (inlineData p) as [i|]; [rewrite Hp|]; apply IH, Hps.
Qed.

Lemma image_or_throw_prefix missing r url :
  image_or_throw missing r = Return url -> exists d, url = png_prefix +:+ d.
Proof.
  unfold image_or_throw. destruct r as [resp|e]; [|discriminate].
  destruct (extract_image resp) as [u|e] eqn:Hex; [|discriminate].
  destruct (truthy_string u) eqn:Hu; [|discriminate].
  intros [= <-]. revert Hex. unfold extract_image.
  destruct (candidates resp) as [cs|]; [|intros [= <-]; discriminate].
  destruct (cs !! 0%nat) as [c|]; [|discriminate].
  destruct (content c) as [ct|]; [|discriminate].
  destruct (parts ct) as [ps|]; [|intros [= <-]; discriminate].
  intros [= <-]. destruct (first_image_prefix ps) as [H|H]; [|exact H].
  rewrite H in Hu. discriminate.
Qed.

Lemma image_or_throw_no_data missing resp :
  has_image_data resp = false ->
  exists e, image_or_throw missing (Return resp) = Throw e.
Proof.
  unfold has_image_data, image_or_throw, extract_image. intros H.
  destruct (candidates resp) as [cs|]; [|eexists; reflexivity].
  destruct cs as [|c cs]; simpl; [eexists; reflexivity|].
  simpl in H. apply orb_false_iff in H as [Hc _].
  unfold candidate_has_image in Hc.
  destruct (content c) as [ct|]; [|eexists; reflexivity].
  destruct (parts ct) as [ps|]; [|eexists; reflexivity].
  rewrite (first_image_none ps Hc). eexists; reflexivity.
Qed.

(** C9. Whatever the input image, a frame returned by
    [generateMotionFrame] or [upscaleFrame] starts with
    [data:image/png;base64,]; and when the service answers with a response
    that holds no image data, the call throws. *)
Theorem frame_is_png_or_error (ai : Service) (base64Image : string)
    (frameIndex totalFrames : nat) (description direction aspect : string) :
  (forall url,
     generateMotionFrame ai base64Image frameIndex totalFrames description direction
       = Return url ->
     exists d, url = "data:image/png;base64," +:+ d) /\
  (forall url,
     upscaleFrame ai base64Image aspect = Return url ->
     exists d, url = "data:image/png;base64," +:+ d) /\
  (forall resp,
     ai (motion_request base64Image frameIndex totalFrames description direction)
       = Return resp ->
     has_image_data resp = false ->
     exists e,
       generateMotionFrame ai base64Image frameIndex totalFrames description direction
         = Throw e) /\
  (forall resp,
     ai (upscale_request base64Image aspect) = Return resp ->
     has_image_data resp = false ->
     exists e, upscaleFrame ai base64Image aspect = Throw e).
Proof.
  repeat split.
  - intros url. apply image_or_throw_prefix.
  - intros url. apply image_or_throw_prefix.
  - intros resp Hai Hno. unfold generateMotionFrame. rewrite Hai.
    apply image_or_throw_no_data, Hno.
  - intros resp Hai Hno. unfold upscaleFrame. rewrite Hai.
    apply image_or_throw_no_data, Hno.
Qed.

Lemma frame_is_png_or_error_witness :
  (exists d, "data:image/png;base64,FRAME3" = "data:image/png;base64," +:+ d) /\
  (exists d, "data:image/png;base64,UP/9j/4AAQ" = "data:image/png;base64," +:+ d) /\
  (exists e,
     generateMotionFrame Samples.chatty Samples.jpeg_seed 3 10 "A bird flying" "Right"
       = Throw e) /\
  (exists e, upscaleFrame Samples.chatty Samples.jpeg_seed "16:9" = Throw e).
Proof.
  destruct (frame_is_png_or_error Samples.painter Samples.jpeg_seed 3 10
              "A bird flying" "Right" "16:9") as (Hmotion & Hupscale & _ & _).
  destruct (frame_is_png_or_error Samples.chatty Samples.jpeg_seed 3 10
              "A bird flying" "Right" "16:9") as (_ & _ & Hmotion' & Hupscale').
  split; [apply Hmotion; reflexivity|].
  split; [apply Hupscale; reflexivity|].
  split; [eapply Hmotion'; reflexivity | eapply Hupscale'; reflexivity].
Defined.

End ServiceSpec.

(** ** Runs of a batch *)

Module AsyncFacts.
Import JS Async.
Local Open Scope list_scope.

Lemma values_fmap_Done {A} (vs : list A) : values (Done <$> vs) = Some vs.
Proof. induction vs as [|v vs IH]; csimpl; [reflexivity | rewrite IH; reflexivity]. Qed.

Lemma values_not_done {A} (sl : list (slot A)) p :
  sl !! p = Some Waiting -> values sl = None.
Proof.
  revert p. induction sl as [|x sl IH]; intros p H; [discriminate|].
  destruct p as [|p]; simpl in H.
  - injection H as ->. reflexivity.
  - simpl. rewrite (IH p H). destruct x; reflexivity.
Qed.

Section Runs.
Context {S A : Type}.
Variable then_effect : S -> S.
Variable then_value : nat -> string -> A.
Variable on_all : list A -> S -> S.
Variable on_error : string -> S -> S.
Variable outcome : nat -> completion string.

Let settle' := settle then_effect then_value on_all on_error outcome.

(** *** Once [Promise.all] has settled, only [.then] handlers run. *)
Lemma settled_phase order : forall s sl,
  exists k,
    fst (fold_left settle' order (s, {| slots := sl; settled := true |}))
      = Nat.iter k then_effect s.
Proof.
  induction order as [|p order IH]; intros s sl; simpl.
  - exists 0. reflexivity.
  - destruct (sl !! p) as [[| |]|]; try apply IH.
    destruct (outcome p) as [v|e]; [|apply IH].
    destruct (IH (then_effect s) (<[p:=Done (then_value p v)]> sl)) as [k Hk].
    exists (Datatypes.S k). rewrite Hk. symmetry. apply Nat.iter_succ_r.
Qed.

(** *** A batch with a failing request runs the [catch] path once and
    never the continuation. *)
Lemma rejected_phase order : forall s sl p0 e0,
  sl !! p0 = Some Waiting ->
  outcome p0 = Throw e0 ->
  p0 ∈ order ->
  exists k1 k2 p e,
    outcome p = Throw e /\
    fst (fold_left settle' order (s, {| slots := sl; settled := false |}))
      = Nat.iter k2 then_effect (on_error e (Nat.iter k1 then_effect s)).
Proof.
  induction order as [|p order IH]; intros s sl p0 e0 Hp0 He0 Hin.
  - apply elem_of_nil in Hin. destruct Hin.
  - simpl. destruct (sl !! p) as [[| |]|] eqn:Hp.
    + destruct (outcome p) as [v|e] eqn:Ho.
      * assert (Hne : p <> p0) by congruence.
        assert (Hp0' : <[p:=Done (then_value p v)]> sl !! p0 = Some Waiting).
        { rewrite list_lookup_insert_ne by exact Hne. exact Hp0. }
        rewrite (values_not_done _ _ Hp0').
        apply elem_of_cons in Hin as [Heq|Hin]; [congruence|].
        destruct (IH (then_effect s) _ p0 e0 Hp0' He0 Hin)
          as (k1 & k2 & q & e & Hq & Hrun).
        exists (Datatypes.S k1), k2, q, e. split; [exact Hq|].
        rewrite Hrun, Nat.iter_succ_r. reflexivity.
      * destruct (settled_phase order (on_error e s) (<[p:=Failed]> sl)) as [k2 Hk2].
        exists 0, k2, p, e. split; [exact Ho | exact Hk2].
    + apply elem_of_cons in Hin as [Heq|Hin]; [congruence|].
      apply (IH s sl p0 e0 Hp0 He0 Hin).
    + apply elem_of_cons in Hin as [Heq|Hin]; [congruence|].
      apply (IH s sl p0 e0 Hp0 He0 Hin).
    + apply elem_of_cons in Hin as [Heq|Hin]; [congruence|].
      apply (IH s sl p0 e0 Hp0 He0 Hin).
Qed.

Lemma run_rejected n order s p0 e0 :
  p0 < n ->
  outcome p0 = Throw e0 ->
  p0 ∈ order ->
  exists k1 k2 p e,
    outcome p = Throw e /\
    run then_effect then_value on_all on_error outcome n order s
      = Nat.iter k2 then_effect (on_error e (Nat.iter k1 then_effect s)).
Proof.
  intros Hlt He0 Hin. unfold run, start.
  assert (Hw : replicate n (@Waiting A) !! p0 = Some Waiting)
    by (apply lookup_replicate_2, Hlt).
  rewrite (values_not_done _ _ Hw).
  apply (rejected_phase order s _ p0 e0 Hw He0 Hin).
Qed.

(** *** A batch whose requests all succeed. *)
Variable n : nat.
Variable value_of : nat -> string.
Hypothesis all_fulfilled : forall p, p < n -> outcome p = Return (value_of p).

Let item (p : nat) : A := then_value p (value_of p).

(** The slots while the positions in [rest] are still waiting. *)
Let inv (rest : list nat) (sl : list (slot A)) : Prop :=
  length sl = n /\
  forall p, p < n ->
    sl !! p = Some (if decide (p ∈ rest) then Waiting else Done (item p)).

Lemma inv_done sl : inv [] sl -> values sl = Some (item <$> seq 0 n).
Proof.
  intros [Hlen Hsl].
  assert (Heq : sl = Done <$> (item <$> seq 0 n)).
  { apply list_eq. intros p. destruct (decide (p < n)) as [Hp|Hp].
    - rewrite (Hsl p Hp), !list_lookup_fmap, lookup_seq_lt by exact Hp.
      destruct (decide (p ∈ [])) as [Hin|_]; [apply elem_of_nil in Hin; destruct Hin|].
      reflexivity.
    - rewrite !lookup_ge_None_2; [reflexivity | | lia].
      rewrite !length_fmap, length_seq. lia. }
  rewrite Heq. apply values_fmap_Done.
Qed.

Lemma inv_step p rest sl :
  NoDup (p :: rest) -> p < n -> inv (p :: rest) sl ->
  inv rest (<[p:=Done (item p)]> sl).
Proof.
  intros Hnd Hp [Hlen Hsl]. apply NoDup_cons in Hnd as [Hnotin _].
  split; [rewrite length_insert; exact Hlen|].
  intros q Hq. destruct (decide (q = p)) as [->|Hne].
  - rewrite list_lookup_insert_eq by lia.
    destruct (decide (p ∈ rest)); [contradiction | reflexivity].
  - rewrite list_lookup_insert_ne by congruence. rewrite (Hsl q Hq).
    destruct (decide (q ∈ p :: rest)) as [Hin|Hin], (decide (q ∈ rest)) as [Hin'|Hin'];
      try reflexivity.
    + apply elem_of_cons in Hin as [?|?]; contradiction.
    + exfalso. apply Hin, elem_of_cons. right. exact Hin'.
Qed.

Lemma fulfilled_phase rest : forall s sl,
  rest <> [] ->
  NoDup rest ->
  (forall p, p ∈ rest -> p < n) ->
  inv rest sl ->
  fst (fold_left settle' rest (s, {| slots := sl; settled := false |}))
    = on_all (item <$> seq 0 n) (Nat.iter (length rest) then_effect s).
Proof.
  induction rest as [|p rest IH]; intros s sl Hne Hnd Hlt Hinv; [congruence|].
  assert (Hp : p < n) by (apply Hlt; left).
  assert (Hw : sl !! p = Some Waiting).
  { destruct Hinv as [_ Hsl]. rewrite (Hsl p Hp).
    destruct (decide (p ∈ p :: rest)) as [_|Hn]; [reflexivity|].
    exfalso. apply Hn. left. }
  pose proof (inv_step p rest sl Hnd Hp Hinv) as Hinv'.
  simpl. rewrite Hw, (all_fulfilled p Hp). simpl. fold (item p).
  destruct rest as [|q rest].
  - rewrite (inv_done _ Hinv'). reflexivity.
  - assert (Hq : q < n) by (apply Hlt; right; left).
    assert (Hwq : <[p:=Done (item p)]> sl !! q = Some Waiting).
    { destruct Hinv' as [_ Hsl]. rewrite (Hsl q Hq).
      destruct (decide (q ∈ q :: rest)) as [_|Hn]; [reflexivity|].
      exfalso. apply Hn. left. }
    rewrite (values_not_done _ _ Hwq).
    rewrite IH; [|discriminate| |intros r Hr; apply Hlt; right; exact Hr|exact Hinv'].
    + rewrite <- Nat.iter_succ_r. reflexivity.
    + apply NoDup_cons in Hnd as [_ Hnd]. exact Hnd.
Qed.

Lemma run_fulfilled order s :
  order ≡ₚ seq 0 n ->
  run then_effect then_value on_all on_error outcome n order s
    = on_all (item <$> seq 0 n) (Nat.iter n then_effect s).
Proof.
  intros Hperm. unfold run, start.
  assert (Hlen : length order = n).
  { rewrite (Permutation_length Hperm). apply length_seq. }
  destruct (decide (n = 0)) as [Hn|Hn].
  - rewrite Hn in Hperm |- *. apply Permutation_nil_r in Hperm.
    rewrite Hperm. reflexivity.
  - assert (Hw : replicate n (@Waiting A) !! 0 = Some Waiting)
      by (apply lookup_replicate_2; lia).
    rewrite (values_not_done _ _ Hw).
    rewrite fulfilled_phase.
    + rewrite Hlen. reflexivity.
    + intros ->. simpl in Hlen. lia.
    + rewrite Hperm. apply NoDup_seq.
    + intros p Hp. rewrite Hperm in Hp. apply elem_of_seq in Hp. lia.
    + split; [apply length_replicate|].
      intros p Hp. rewrite lookup_replicate_2 by exact Hp.
      destruct (decide (p ∈ order)) as [_|Hnot]; [reflexivity|].
      exfalso. apply Hnot. rewrite Hperm. apply elem_of_seq. lia.
Qed.
End Runs.

End AsyncFacts.

(** ** Sorting by request index *)

Module SortFacts.
Import JS App.
Local Open Scope list_scope.

Lemma insert_by_last {A} (cmp : A -> A -> Z) x l :
  Forall (fun y => (0 <= cmp x y)%Z) l -> insert_by cmp x l = l ++ [x].
Proof.
  induction 1 as [|y l Hy _ IH]; simpl; [reflexivity|].
  destruct (Z.ltb_spec (cmp x y) 0); [lia|]. rewrite IH. reflexivity.
Qed.

(** A list in which no element compares below an earlier one is left as
    it is. *)
Lemma fold_insert_sorted {A} (cmp : A -> A -> Z) l : forall acc,
  StronglySorted (fun a b => (0 <= cmp b a)%Z) l ->
  Forall (fun x => Forall (fun y => (0 <= cmp x y)%Z) acc) l ->
  fold_left (fun acc x => insert_by cmp x acc) l acc = acc ++ l.
Proof.
  induction l as [|x l IH]; intros acc Hs Hacc; simpl.
  - rewrite app_nil_r. reflexivity.
  - apply StronglySorted_inv in Hs as [Hs Hx].
    apply Forall_cons in Hacc as [Hxacc Hacc].
    rewrite (insert_by_last cmp x acc Hxacc), IH; [|exact Hs|].
    + rewrite <- app_assoc. reflexivity.
    + rewrite Forall_forall in Hacc, Hx |- *. intros z Hz.
      apply Forall_app. split; [apply Hacc, Hz|].
      constructor; [apply Hx, Hz | constructor].
Qed.

Lemma sort_sorted {A} (cmp : A -> A -> Z) l :
  StronglySorted (fun a b => (0 <= cmp b a)%Z) l -> sort cmp l = l.
Proof.
  intros Hs. unfold sort. rewrite fold_insert_sorted; [reflexivity|exact Hs|].
  apply Forall_forall. intros x _. constructor.
Qed.

(** The results of [Promise.all] are in request order. *)
Lemma tagged_sorted (tag : nat -> nat) (value_of : nat -> string) n : forall a,
  (forall p q, p <= q -> tag p <= tag q) ->
  StronglySorted (fun x y => (0 <= by_index y x)%Z)
    ((fun p => {| index := tag p; frame := value_of p |}) <$> seq a n).
Proof.
  induction n as [|n IH]; intros a Hmono; csimpl; constructor.
  - apply IH, Hmono.
  - apply Forall_forall. intros y Hy.
    apply list_elem_of_fmap in Hy as (q & -> & Hq). apply elem_of_seq in Hq.
    unfold by_index. simpl. pose proof (Hmono a q). lia.
Qed.

Lemma sorted_frames_tagged (tag : nat -> nat) (value_of : nat -> string) n :
  (forall p q, p <= q -> tag p <= tag q) ->
  sorted_frames ((fun p => {| index := tag p; frame := value_of p |}) <$> seq 0 n)
    = value_of <$> seq 0 n.
Proof.
  intros Hmono. unfold sorted_frames.
  rewrite (sort_sorted by_index _ (tagged_sorted tag value_of n 0 Hmono)).
  rewrite <- list_fmap_compose. reflexivity.
Qed.

(** *** Results in any order *)

(** Had the results been collected in the order of completion, the sort
    would still put them in request order: a sorted permutation of
    results with distinct indices is unique. *)

Lemma strongly_sorted_weaken {A} (P Q : A -> A -> Prop) l :
  (forall a b, P a b -> Q a b) -> StronglySorted P l -> StronglySorted Q l.
Proof.
  intros HPQ. induction 1 as [|x l Hs IH Hx]; constructor; [exact IH|].
  eapply Forall_impl; [exact Hx|]. intros b. apply HPQ.
Qed.

Lemma insert_by_perm {A} (cmp : A -> A -> Z) x l : insert_by cmp x l ≡ₚ x :: l.
Proof.
  induction l as [|y l IH]; simpl; [reflexivity|].
  destruct (cmp x y <? 0)%Z; [reflexivity|].
  rewrite IH. apply Permutation_swap.
Qed.

Lemma fold_insert_perm {A} (cmp : A -> A -> Z) l : forall acc,
  fold_left (fun acc x => insert_by cmp x acc) l acc ≡ₚ acc ++ l.
Proof.
  induction l as [|x l IH]; intros acc; simpl.
  - rewrite app_nil_r. reflexivity.
  - rewrite IH, insert_by_perm. simpl. apply Permutation_middle.
Qed.

Lemma sort_perm {A} (cmp : A -> A -> Z) l : sort cmp l ≡ₚ l.
Proof. unfold sort. rewrite fold_insert_perm. reflexivity. Qed.

Lemma insert_by_index_sorted x l :
  StronglySorted index_le l -> StronglySorted index_le (insert_by by_index x l).
Proof.
  induction 1 as [|y l Hs IH Hy]; simpl; [repeat constructor|].
  destruct (Z.ltb_spec (by_index x y) 0) as [Hlt|Hge]; unfold by_index in *.
  - constructor; [constructor; assumption|].
    constructor; [unfold index_le; lia|].
    eapply Forall_impl; [exact Hy|]. unfold index_le. intros z Hz. lia.
  - constructor; [exact IH|].
    rewrite insert_by_perm. constructor; [unfold index_le; lia | exact Hy].
Qed.

Lemma fold_insert_index_sorted l : forall acc,
  StronglySorted index_le acc ->
  StronglySorted index_le (fold_left (fun acc x => insert_by by_index x acc) l acc).
Proof.
  induction l as [|x l IH]; intros acc Hacc; simpl; [exact Hacc|].
  apply IH, insert_by_index_sorted, Hacc.
Qed.

Lemma index_inj_in (l : list Item) x y :
  NoDup (index <$> l) -> x ∈ l -> y ∈ l -> index x = index y -> x = y.
Proof.
  induction l as [|z l IH]; intros Hnd Hx Hy Heq.
  - apply elem_of_nil in Hx. destruct Hx.
  - rewrite fmap_cons in Hnd. apply NoDup_cons in Hnd as [Hz Hnd].
    apply elem_of_cons in Hx as [->|Hx]; apply elem_of_cons in Hy as [->|Hy].
    + reflexivity.
    + exfalso. apply Hz. rewrite Heq. apply list_elem_of_fmap_2, Hy.
    + exfalso. apply Hz. rewrite <- Heq. apply list_elem_of_fmap_2, Hx.
    + apply IH; assumption.
Qed.

Lemma sorted_perm_unique (l1 : list Item) : forall l2,
  NoDup (index <$> l1) ->
  StronglySorted index_le l1 -> StronglySorted index_le l2 ->
  l1 ≡ₚ l2 -> l1 = l2.
Proof.
  induction l1 as [|x l1 IH]; intros l2 Hnd Hs1 Hs2 Hperm.
  - apply Permutation_nil_l in Hperm. congruence.
  - destruct l2 as [|y l2]; [apply Permutation_nil_r in Hperm; discriminate|].
    apply StronglySorted_inv in Hs1 as [Hs1 Hx].
    apply StronglySorted_inv in Hs2 as [Hs2 Hy].
    assert (Hxy : x = y).
    { assert (Hyin : y ∈ x :: l1) by (rewrite Hperm; left).
      assert (Hxin : x ∈ y :: l2) by (rewrite <- Hperm; left).
      apply (index_inj_in (x :: l1)); [exact Hnd | left | exact Hyin |].
      rewrite Forall_forall in Hx, Hy. unfold index_le in *.
      apply elem_of_cons in Hyin as [->|Hyin]; [reflexivity|].
      apply elem_of_cons in Hxin as [->|Hxin]; [reflexivity|].
      pose proof (Hx y Hyin). pose proof (Hy x Hxin). lia. }
    subst y. f_equal. apply IH; [|exact Hs1|exact Hs2|].
    + rewrite fmap_cons in Hnd. apply NoDup_cons in Hnd as [_ Hnd]. exact Hnd.
    + apply (Permutation_cons_inv Hperm).
Qed.

Lemma sorted_frames_any_order (tag : nat -> nat) (value_of : nat -> string) n results :
  (forall p q, p < q -> tag p < tag q) ->
  results ≡ₚ (fun p => {| index := tag p; frame := value_of p |}) <$> seq 0 n ->
  sorted_frames results = value_of <$> seq 0 n.
Proof.
  intros Hmono Hperm.
  assert (Hmono' : forall p q, p <= q -> tag p <= tag q).
  { intros p q Hpq. destruct (decide (p = q)) as [->|Hne]; [lia|].
    pose proof (Hmono p q). lia. }
  rewrite <- (sorted_frames_tagged tag value_of n Hmono').
  unfold sorted_frames. f_equal.
  rewrite (sort_sorted by_index _ (tagged_sorted tag value_of n 0 Hmono')).
  symmetry. apply sorted_perm_unique.
  - rewrite <- list_fmap_compose. apply NoDup_fmap_2_strong; [|apply NoDup_seq].
    intros p q _ _ Heq. simpl in Heq.
    destruct (Nat.lt_total p q) as [H|[H|H]]; [|exact H|];
      apply Hmono in H; lia.
  - eapply strongly_sorted_weaken; [|apply (tagged_sorted tag value_of n 0 Hmono')].
    intros a b. unfold index_le, by_index. lia.
  - apply fold_insert_index_sorted. constructor.
  - rewrite sort_perm. symmetry. exact Hperm.
Qed.

End SortFacts.

(** ** The orchestrators *)

Module AppSpec.
Import JS App.
Local Open Scope list_scope.

(** Progress updates touch only the counter. *)
Lemma iter_bump_frames k w :
  generatedFrames (ui (Nat.iter k (setStatus bump) w)) = generatedFrames (ui w).
Proof. induction k as [|k IH]; simpl; [reflexivity | exact IH]. Qed.

Lemma iter_bump_alerts k w : alerts (Nat.iter k (setStatus bump) w) = alerts w.
Proof. induction k as [|k IH]; simpl; [reflexivity | exact IH]. Qed.

Lemma iter_bump_flags k w :
  isUpscaling (ui (Nat.iter k (setStatus bump) w)) = isUpscaling (ui w) /\
  isGenerating (status (ui (Nat.iter k (setStatus bump) w)))
    = isGenerating (status (ui w)) /\
  error (status (ui (Nat.iter k (setStatus bump) w))) = error (status (ui w)).
Proof. induction k as [|k IH]; simpl; [repeat split | exact IH]. Qed.

Lemma iter_bump_count k w :
  completedFrames (status (ui (Nat.iter k (setStatus bump) w)))
    = completedFrames (status (ui w)) + k.
Proof. induction k as [|k IH]; simpl; [lia | rewrite IH; lia]. Qed.

Lemma truthy_nonempty s : s <> "" -> truthy_string s = true.
Proof.
  intros H. unfold truthy_string. destruct (String.eqb_spec s ""); [contradiction|reflexivity].
Qed.

(** C1. With a seed image and ten requests that all succeed, whatever the
    order in which they settle, the sequence afterwards is the seed
    followed by the frames of requests 1..10 in that order: eleven
    elements.  ([order] lists the positions 0..9 of the promises in the
    order in which their requests settle; position [p] is request
    [p + 1].) *)
Theorem generate_all_succeed (env : Env) (order : list nat) (w : World)
    (seed : string) (frame_of : nat -> string) :
  originalImage (ui w) = Some seed ->
  seed <> "" ->
  (forall i, 1 <= i <= TOTAL_FRAMES ->
     GeminiService.generateMotionFrame (ai env) seed i TOTAL_FRAMES
       (promptDescription (ui w)) (selectedDirection (ui w)) = Return (frame_of i)) ->
  order ≡ₚ seq 0 TOTAL_FRAMES ->
  generatedFrames (ui (handleGenerate env order w))
    = seed :: (frame_of <$> seq 1 TOTAL_FRAMES) /\
  length (generatedFrames (ui (handleGenerate env order w))) = TOTAL_FRAMES + 1 /\
  generatedFrames (ui (handleGenerate env order w)) !! 0 = Some seed /\
  (forall i, 1 <= i <= TOTAL_FRAMES ->
     generatedFrames (ui (handleGenerate env order w)) !! i = Some (frame_of i)) /\
  completedFrames (status (ui (handleGenerate env order w))) = TOTAL_FRAMES /\
  isGenerating (status (ui (handleGenerate env order w))) = false /\
  error (status (ui (handleGenerate env order w))) = None.
Proof.
  intros Hseed Hne Hall Hperm.
  assert (Hrun : handleGenerate env order w
    = setStatus not_generating
        (setGeneratedFrames (seed :: (frame_of <$> seq 1 TOTAL_FRAMES))
           (Nat.iter TOTAL_FRAMES (setStatus bump)
              (setGeneratedFrames []
                 (setStatus (fun _ => {| isGenerating := true; completedFrames := 0;
                                         totalFrames := TOTAL_FRAMES; error := None |})
                    w))))).
  { unfold handleGenerate. rewrite Hseed, (truthy_nonempty seed Hne).
    rewrite (AsyncFacts.run_fulfilled _ _ _ _ _ TOTAL_FRAMES (fun p => frame_of (p + 1))).
    - rewrite (SortFacts.sorted_frames_tagged (fun p => p + 1)) by (intros; lia).
      reflexivity.
    - intros p Hp. apply Hall. lia.
    - exact Hperm. }
  assert (Hframes : generatedFrames (ui (handleGenerate env order w))
                    = seed :: (frame_of <$> seq 1 TOTAL_FRAMES))
    by (rewrite Hrun; reflexivity).
  rewrite !Hframes.
  split; [reflexivity|].
  split; [rewrite length_cons, length_fmap, length_seq; lia|].
  split; [reflexivity|].
  split; [|rewrite Hrun; split; [|split]].
  - intros i Hi. destruct i as [|i]; [lia|].
    change ((frame_of <$> seq 1 TOTAL_FRAMES) !! i = Some (frame_of (Datatypes.S i))).
    rewrite list_lookup_fmap, lookup_seq_lt by lia. reflexivity.
  - change (completedFrames (status (ui (Nat.iter TOTAL_FRAMES (setStatus bump)
      (setGeneratedFrames []
         (setStatus (fun _ => {| isGenerating := true; completedFrames := 0;
                                 totalFrames := TOTAL_FRAMES; error := None |}) w)))))
      = TOTAL_FRAMES).
    rewrite iter_bump_count. reflexivity.
  - reflexivity.
  - change (error (status (ui (Nat.iter TOTAL_FRAMES (setStatus bump)
      (setGeneratedFrames []
         (setStatus (fun _ => {| isGenerating := true; completedFrames := 0;
                                 totalFrames := TOTAL_FRAMES; error := None |}) w)))))
      = None).
    destruct (iter_bump_flags TOTAL_FRAMES
      (setGeneratedFrames []
         (setStatus (fun _ => {| isGenerating := true; completedFrames := 0;
                                 totalFrames := TOTAL_FRAMES; error := None |}) w)))
      as (_ & _ & He). exact He.
Qed.

Lemma generate_all_succeed_witness :
  generatedFrames
    (ui (handleGenerate (Samples.browser Samples.painter) (Samples.reversed 10)
           (handleImageSelect Samples.jpeg_seed initial)))
  = Samples.jpeg_seed
      :: ((fun i => "data:image/png;base64,FRAME" +:+ String_of (N.of_nat i))
            <$> seq 1 10).
Proof.
  refine (proj1 (generate_all_succeed (Samples.browser Samples.painter)
                   (Samples.reversed 10)
                   (handleImageSelect Samples.jpeg_seed initial) Samples.jpeg_seed
                   (fun i => "data:image/png;base64,FRAME" +:+ String_of (N.of_nat i))
                   _ _ _ _)).
  - reflexivity.
  - discriminate.
  - intros i _. reflexivity.
  - symmetry. apply Permutation_rev.
Defined.

(** *** A failed generation *)

(** The claim as the specification states it fails: a state showing three
    frames, request 3 refused; the sequence shown afterwards is empty, not
    the three frames. *)
Lemma generate_failure_clears_sequence :
  GeminiService.generateMotionFrame (ai (Samples.browser (Samples.flaky 3)))
    Samples.jpeg_seed 3 TOTAL_FRAMES
    (promptDescription (ui Samples.showing)) (selectedDirection (ui Samples.showing))
    = Throw "429 Too Many Requests" /\
  generatedFrames (ui Samples.showing)
    = [Samples.jpeg_seed; "data:image/png;base64,AAAA"; "data:image/png;base64,BBBB"] /\
  generatedFrames
    (ui (handleGenerate (Samples.browser (Samples.flaky 3))
           (Samples.in_order 10) Samples.showing)) = [] /\
  generatedFrames
    (ui (handleGenerate (Samples.browser (Samples.flaky 3))
           (Samples.in_order 10) Samples.showing))
  <> generatedFrames (ui Samples.showing).
Proof.
  split; [reflexivity|]. split; [reflexivity|]. split; [reflexivity|].
  discriminate.
Qed.

(** C2 (amended). When one of the ten requests fails, whatever the order
    in which the requests settle, the sequence shown afterwards is empty:
    the handler cleared it before the first request and none of the
    results is placed.  The failure message is recorded in the status and
    the operation is no longer in progress. *)
Theorem generate_some_fail (env : Env) (order : list nat) (w : World)
    (seed : string) (i : nat) (reason : string) :
  originalImage (ui w) = Some seed ->
  seed <> "" ->
  1 <= i <= TOTAL_FRAMES ->
  GeminiService.generateMotionFrame (ai env) seed i TOTAL_FRAMES
    (promptDescription (ui w)) (selectedDirection (ui w)) = Throw reason ->
  order ≡ₚ seq 0 TOTAL_FRAMES ->
  generatedFrames (ui (handleGenerate env order w)) = [] /\
  error (status (ui (handleGenerate env order w))) = Some generation_failed_msg /\
  isGenerating (status (ui (handleGenerate env order w))) = false.
Proof.
  intros Hseed Hne Hi Hfail Hperm.
  unfold handleGenerate. rewrite Hseed, (truthy_nonempty seed Hne).
  match goal with
  | |- context [Async.run ?te ?tv ?oa ?oe ?oc ?n order ?w1] =>
      destruct (AsyncFacts.run_rejected te tv oa oe oc n order w1 (i - 1) reason)
        as (k1 & k2 & q & e & _ & ->)
  end.
  - unfold TOTAL_FRAMES in *. lia.
  - replace (i - 1 + 1) with i by lia. exact Hfail.
  - rewrite Hperm. apply elem_of_seq. unfold TOTAL_FRAMES in *. lia.
  - rewrite iter_bump_frames.
    destruct (iter_bump_flags k2
      (setStatus generation_failed (Nat.iter k1 (setStatus bump)
         (setGeneratedFrames []
           (setStatus (fun _ => {| isGenerating := true; completedFrames := 0;
                                   totalFrames := TOTAL_FRAMES; error := None |}) w)))))
      as (_ & -> & ->).
    split; [|split; reflexivity].
    change (generatedFrames (ui (Nat.iter k1 (setStatus bump)
         (setGeneratedFrames []
           (setStatus (fun _ => {| isGenerating := true; completedFrames := 0;
                                   totalFrames := TOTAL_FRAMES; error := None |}) w))))
      = []).
    rewrite iter_bump_frames. reflexivity.
Qed.

Lemma generate_some_fail_witness :
  generatedFrames
    (ui (handleGenerate (Samples.browser (Samples.flaky 3)) (Samples.reversed 10)
           Samples.showing)) = [] /\
  error (status (ui (handleGenerate (Samples.browser (Samples.flaky 3))
                       (Samples.reversed 10) Samples.showing)))
    = Some generation_failed_msg /\
  isGenerating (status (ui (handleGenerate (Samples.browser (Samples.flaky 3))
                              (Samples.reversed 10) Samples.showing))) = false.
Proof.
  refine (generate_some_fail (Samples.browser (Samples.flaky 3)) (Samples.reversed 10)
            Samples.showing Samples.jpeg_seed 3 "429 Too Many Requests" _ _ _ _ _).
  - reflexivity.
  - discriminate.
  - unfold TOTAL_FRAMES. lia.
  - reflexivity.
  - symmetry. apply Permutation_rev.
Defined.

(** *** A failed upscale *)

Lemma upscale_failed_keeps k w :
  generatedFrames (ui (Nat.iter k (setStatus bump) (upscale_failed w)))
    = generatedFrames (ui w) /\
  alerts (Nat.iter k (setStatus bump) (upscale_failed w))
    = alerts w ++ [upscale_failed_msg] /\
  isUpscaling (ui (Nat.iter k (setStatus bump) (upscale_failed w))) = false.
Proof.
  rewrite iter_bump_frames, iter_bump_alerts.
  destruct (iter_bump_flags k (upscale_failed w)) as (-> & _ & _).
  repeat split.
Qed.

(** C4. Once the key check has let the handler through, a failing
    per-frame request makes the whole upscale fail, whatever the order in
    which the requests settle: the sequence is the one from before, the
    alert has been raised (once), and upscaling is no longer in
    progress. *)
Theorem upscale_some_fail (env : Env) (order : list nat) (w : World) :
  generatedFrames (ui w) <> [] ->
  key_stage env = true ->
  order ≡ₚ seq 0 (length (generatedFrames (ui w))) ->
  (forall aspect,
     getClosestAspectRatio env (default "" (generatedFrames (ui w) !! 0)) = Return aspect ->
     exists p reason,
       p < length (generatedFrames (ui w)) /\
       GeminiService.upscaleFrame (ai env)
         (default "" (generatedFrames (ui w) !! p)) aspect = Throw reason) ->
  generatedFrames (ui (handleUpscale env order w)) = generatedFrames (ui w) /\
  alerts (handleUpscale env order w) = alerts w ++ [upscale_failed_msg] /\
  isUpscaling (ui (handleUpscale env order w)) = false.
Proof.
  intros Hne Hkey Hperm Hfail. unfold handleUpscale. cbv zeta.
  destruct (Nat.eqb_spec (length (generatedFrames (ui w))) 0) as [H0|_].
  { destruct (generatedFrames (ui w)); [congruence | discriminate]. }
  rewrite Hkey. cbn [negb].
  destruct (getClosestAspectRatio env _) as [aspect|e] eqn:Haspect.
  - destruct (Hfail aspect eq_refl) as (p & reason & Hp & Hthrow).
    match goal with
    | |- context [Async.run ?te ?tv ?oa ?oe ?oc ?n order ?w1] =>
        destruct (AsyncFacts.run_rejected te tv oa oe oc n order w1 p reason)
          as (k1 & k2 & q & e & _ & ->)
    end.
    + exact Hp.
    + exact Hthrow.
    + rewrite Hperm. apply elem_of_seq. lia.
    + destruct (upscale_failed_keeps k2 (Nat.iter k1 (setStatus bump)
        (setStatus (restart_count (length (generatedFrames (ui w))))
           (setIsUpscaling true w)))) as (-> & -> & ->).
      rewrite iter_bump_frames, iter_bump_alerts. repeat split.
  - repeat split.
Qed.

Lemma upscale_some_fail_witness :
  generatedFrames
    (ui (handleUpscale (Samples.browser (Samples.picky "AAAA")) (Samples.reversed 3)
           Samples.showing))
    = generatedFrames (ui Samples.showing) /\
  alerts (handleUpscale (Samples.browser (Samples.picky "AAAA")) (Samples.reversed 3)
            Samples.showing)
    = alerts Samples.showing ++ [upscale_failed_msg] /\
  isUpscaling
    (ui (handleUpscale (Samples.browser (Samples.picky "AAAA")) (Samples.reversed 3)
           Samples.showing)) = false.
Proof.
  refine (upscale_some_fail (Samples.browser (Samples.picky "AAAA"))
            (Samples.reversed 3) Samples.showing _ _ _ _).
  - discriminate.
  - reflexivity.
  - symmetry. apply Permutation_rev.
  - intros aspect _. exists 1, "429 Too Many Requests".
    split; [simpl; lia | reflexivity].
Defined.

(** *** A new seed image *)

(** C8. Whatever was shown, counted or recorded before, a new seed image
    leaves an empty sequence, a completed-frame count of 0 and no error;
    the new image is the seed. *)
Theorem image_select_resets (base64 : string) (w : World) :
  originalImage (ui (handleImageSelect base64 w)) = Some base64 /\
  generatedFrames (ui (handleImageSelect base64 w)) = [] /\
  completedFrames (status (ui (handleImageSelect base64 w))) = 0 /\
  error (status (ui (handleImageSelect base64 w))) = None /\
  isGenerating (status (ui (handleImageSelect base64 w))) = false /\
  totalFrames (status (ui (handleImageSelect base64 w))) = TOTAL_FRAMES.
Proof. repeat split. Qed.

(** *** Guards *)

(** C10. Without a seed image (null or empty) generate changes nothing,
    and on an empty sequence upscale, video export and archive export
    change nothing: the world afterwards is the world before. *)
Theorem absent_input_is_noop (env : Env) (order : list nat) (w : World) :
  (truthy (originalImage (ui w)) = false -> handleGenerate env order w = w) /\
  (generatedFrames (ui w) = [] ->
     handleUpscale env order w = w /\
     handleDownloadVideo env w = w /\
     handleDownloadZip env w = w).
Proof.
  split.
  - unfold handleGenerate, truthy.
    destruct (originalImage (ui w)) as [img|]; [|reflexivity].
    intros ->. reflexivity.
  - intros Hempty.
    unfold handleUpscale, handleDownloadVideo, handleDownloadZip.
    rewrite Hempty. repeat split.
Qed.

Lemma absent_input_is_noop_witness :
  handleGenerate (Samples.browser Samples.painter) (Samples.in_order 10) initial
    = initial /\
  handleUpscale (Samples.browser Samples.painter) (Samples.in_order 10) initial
    = initial /\
  handleDownloadVideo (Samples.browser Samples.painter) initial = initial /\
  handleDownloadZip (Samples.browser Samples.painter) initial = initial.
Proof.
  destruct (absent_input_is_noop (Samples.browser Samples.painter)
              (Samples.in_order 10) initial) as [Hgenerate Hrest].
  split; [apply Hgenerate; reflexivity | apply Hrest; reflexivity].
Defined.

End AppSpec.

(** ** The archive *)

Module ArchiveSpec.
Import JS App.
Local Open Scope list_scope.

(** *** File names *)

Lemma decimal_value_zero s : decimal_value (String "0" s) = decimal_value s.
Proof.
  unfold decimal_value. simpl. destruct (NilEmpty.uint_of_string s); reflexivity.
Qed.

Lemma decimal_value_String_of n : decimal_value (String_of n) = Some n.
Proof.
  unfold decimal_value, String_of. rewrite NilEmpty.usu, DecimalN.Unsigned.of_to.
  reflexivity.
Qed.

Lemma app_string_cons a x y : String a x +:+ y = String a (x +:+ y).
Proof. reflexivity. Qed.

Lemma decimal_value_cycle s k : forall cur,
  cur = "" \/ cur = "0" ->
  decimal_value (cycle k cur "0" +:+ s) = decimal_value s.
Proof.
  induction k as [|k IH]; intros cur Hcur; [reflexivity|].
  destruct Hcur as [-> | ->]; cbn [cycle];
    rewrite app_string_cons, decimal_value_zero; apply IH; left; reflexivity.
Qed.

Lemma decimal_value_padStart n width :
  decimal_value (padStart (String_of n) width "0") = Some n.
Proof.
  unfold padStart. destruct (width <=? String.length (String_of n))%nat.
  - apply decimal_value_String_of.
  - rewrite decimal_value_cycle by (right; reflexivity).
    apply decimal_value_String_of.
Qed.

Lemma length_app_string x y :
  String.length (x +:+ y) = String.length x + String.length y.
Proof.
  induction x as [|a x IH]; [reflexivity|].
  rewrite app_string_cons. simpl. rewrite IH. reflexivity.
Qed.

Lemma app_string_inj_r z : forall x y, x +:+ z = y +:+ z -> x = y.
Proof.
  induction x as [|a x IH]; intros [|b y] H.
  - reflexivity.
  - apply (f_equal String.length) in H.
    rewrite !length_app_string in H. simpl in H. lia.
  - apply (f_equal String.length) in H.
    rewrite !length_app_string in H. simpl in H. lia.
  - rewrite !app_string_cons in H. injection H as -> H.
    rewrite (IH y H). reflexivity.
Qed.

Lemma frame_filename_inj i j : frame_filename i = frame_filename j -> i = j.
Proof.
  unfold frame_filename. intros H.
  apply (inj (String.app "frame_")), app_string_inj_r in H.
  apply (f_equal decimal_value) in H. rewrite !decimal_value_padStart in H.
  injection H as H. lia.
Qed.

(** *** The entries *)

Lemma zip_file_fresh name data zip :
  Forall (fun e => fst e <> name) zip -> zip_file name data zip = zip ++ [(name, data)].
Proof.
  intros H. unfold zip_file.
  replace (existsb (fun e => String.eqb (fst e) name) zip) with false; [reflexivity|].
  symmetry. induction H as [|e zip He _ IH]; simpl; [reflexivity|].
  rewrite IH. destruct (String.eqb_spec (fst e) name); [contradiction|reflexivity].
Qed.

Lemma forEach_entries frames : forall i zip,
  Forall (fun e => exists j, j < i /\ fst e = frame_filename j) zip ->
  forEach
    (fun frame index zip =>
       zip_file (frame_filename index) (replace_start data_url_prefix frame) zip)
    frames i zip
  = zip ++ imap (fun k => entry (i + k)) frames.
Proof.
  induction frames as [|frame frames IH]; intros i zip Hzip; simpl.
  - rewrite app_nil_r. reflexivity.
  - rewrite zip_file_fresh.
    + rewrite IH.
      * rewrite <- app_assoc. simpl. rewrite Nat.add_0_r. do 2 f_equal.
        apply imap_ext. intros k x _. simpl. f_equal. lia.
      * apply Forall_app. split.
        -- eapply Forall_impl; [exact Hzip|].
           intros e (j & Hj & He). exists j. split; [lia | exact He].
        -- constructor; [|constructor]. exists i. split; [lia | reflexivity].
    + eapply Forall_impl; [exact Hzip|].
      intros e (j & Hj & He) Heq. rewrite He in Heq.
      apply frame_filename_inj in Heq. lia.
Qed.

Lemma archive_entries frames : archive frames = imap entry frames.
Proof.
  unfold archive. rewrite (forEach_entries frames 0 []) by constructor.
  reflexivity.
Qed.

(** *** Zero-padded ordinals *)

Lemma String_of_short n : String.length (String_of n) < 3 -> (n < 100)%N.
Proof.
  intros H. rewrite <- (DecimalN.Unsigned.of_to n). unfold String_of in H.
  destruct (N.to_uint n) as [|d|d|d|d|d|d|d|d|d|d]; [vm_compute; reflexivity|..];
    (destruct d as [|d|d|d|d|d|d|d|d|d|d]; [vm_compute; reflexivity|..];
     (destruct d; [vm_compute; reflexivity | simpl in H; lia ..])).
Qed.

Lemma padStart_small :
  forallb (fun k => String.eqb (padStart (String_of (N.of_nat k)) 3 "0")
                               (ordinal3 (N.of_nat k)))
          (seq 0 100) = true.
Proof. vm_compute. reflexivity. Qed.

Lemma padStart_ordinal3 n : padStart (String_of n) 3 "0" = ordinal3 n.
Proof.
  destruct (N.ltb_spec n 100) as [Hlt|Hge].
  - pose proof padStart_small as H. rewrite forallb_forall in H.
    specialize (H (N.to_nat n)). rewrite N2Nat.id in H.
    apply String.eqb_eq, H, in_seq. lia.
  - unfold ordinal3, padStart.
    destruct (N.ltb_spec n 10); [lia|]. destruct (N.ltb_spec n 100); [lia|].
    destruct (Nat.leb_spec 3 (String.length (String_of n))) as [_|Hshort];
      [reflexivity|].
    apply String_of_short in Hshort. lia.
Qed.

Lemma frame_filename_expected i : frame_filename i = expected_name i.
Proof. unfold frame_filename, expected_name. rewrite padStart_ordinal3. reflexivity. Qed.

(** *** Stripping the prefix *)

Lemma strip_lit_app l r : strip_lit l (l +:+ r) = Some r.
Proof.
  induction l as [|a l IH]; [reflexivity|].
  rewrite app_string_cons. simpl. rewrite Ascii.eqb_refl. exact IH.
Qed.

Lemma word_run_app t c r :
  all_word t = true -> is_word_char c = false ->
  word_run (t +:+ String c r) = String.length t.
Proof.
  intros Ht Hc. induction t as [|a t IH].
  - simpl. change ("" +:+ String c r) with (String c r). simpl. rewrite Hc. reflexivity.
  - simpl in Ht. apply andb_true_iff in Ht as [Ha Ht].
    rewrite app_string_cons. simpl. rewrite Ha, (IH Ht). reflexivity.
Qed.

Lemma drop_chars_app t r : drop_chars (String.length t) (t +:+ r) = r.
Proof.
  induction t as [|a t IH]; [reflexivity|].
  rewrite app_string_cons. simpl. exact IH.
Qed.

(** A prefix whose subtype is a non-empty run of word characters is
    removed. *)
Lemma replace_start_data_url subtype base64 :
  subtype <> "" -> all_word subtype = true ->
  replace_start data_url_prefix (data_url subtype base64) = base64.
Proof.
  intros Hne Hword. unfold replace_start, data_url_prefix, data_url.
  cbn [match_start]. rewrite strip_lit_app.
  change (";base64," +:+ base64) with (String ";" ("base64," +:+ base64)).
  rewrite (word_run_app subtype ";" _ Hword eq_refl).
  destruct (String.length subtype) as [|len] eqn:Hlen.
  { destruct subtype; [congruence | discriminate]. }
  cbn [greedy]. rewrite <- Hlen, drop_chars_app.
  change (String ";" ("base64," +:+ base64)) with (";base64," +:+ base64).
  rewrite strip_lit_app. reflexivity.
Qed.

(** *** What the archive holds *)

(** One entry per frame, in sequence order, named [frame_001.png],
    [frame_002.png], ...; its payload is the frame after the
    replacement. *)
Lemma archive_structure frames :
  length (archive frames) = length frames /\
  forall i frame,
    frames !! i = Some frame ->
    archive frames !! i
      = Some (expected_name i, replace_start data_url_prefix frame).
Proof.
  rewrite archive_entries. split; [apply length_imap|].
  intros i frame Hi. rewrite list_lookup_imap, Hi. simpl.
  unfold entry. rewrite frame_filename_expected. reflexivity.
Qed.

(** So frames whose prefix has a word subtype (png, jpeg, gif, webp, ...)
    are stored as their raw base64 payload. *)
Lemma archive_word_subtypes frames i subtype base64 :
  frames !! i = Some (data_url subtype base64) ->
  subtype <> "" -> all_word subtype = true ->
  archive frames !! i = Some (expected_name i, base64).
Proof.
  intros Hi Hne Hword. destruct (archive_structure frames) as [_ H].
  rewrite (H i _ Hi), (replace_start_data_url subtype base64 Hne Hword).
  reflexivity.
Qed.

(** A prefix of subtype [svg+xml] is not removed: after [svg] the pattern
    wants [;base64,] and meets [+]. *)
Lemma replace_start_svg base64 :
  replace_start data_url_prefix (data_url "svg+xml" base64) = data_url "svg+xml" base64.
Proof. vm_compute. reflexivity. Qed.

Lemma data_url_longer subtype base64 : data_url subtype base64 <> base64.
Proof.
  intros H. apply (f_equal String.length) in H. unfold data_url in H.
  rewrite !length_app_string in H. simpl in H. lia.
Qed.

(** C5. The export at any sequence whose first frame is an SVG data URL,
    as an SVG upload gives: the subtype [svg+xml] is not a run of word
    characters, the pattern does not match, and the entry [frame_001.png]
    is given the whole data URL, which is not the raw base64 payload.
    Whatever the archiver does with it, the raw payload is never
    exported: when the archiver fails, the alert is raised and nothing is
    downloaded; when it succeeds, the one archive downloaded is the one
    holding that entry. *)
Theorem archive_keeps_svg_prefix (env : Env) (w : World) (base64 : string)
    (rest : list string) :
  generatedFrames (ui w) = data_url "svg+xml" base64 :: rest ->
  archive (generatedFrames (ui w)) !! 0
    = Some ("frame_001.png", data_url "svg+xml" base64) /\
  data_url "svg+xml" base64 <> base64 /\
  match zipError env (archive (generatedFrames (ui w))) with
  | Some _ =>
      downloads (handleDownloadZip env w) = downloads w /\
      alerts (handleDownloadZip env w) = alerts w ++ [zip_failed_msg]
  | None =>
      downloads (handleDownloadZip env w)
        = downloads w
          ++ [ {| filename := zip_filename env;
                  blob := ZipBlob (archive (generatedFrames (ui w))) |} ] /\
      alerts (handleDownloadZip env w) = alerts w
  end.
Proof.
  intros Hframes. split; [|split; [apply data_url_longer|]].
  - destruct (archive_structure (generatedFrames (ui w))) as [_ H].
    rewrite (H 0 (data_url "svg+xml" base64)) by (rewrite Hframes; reflexivity).
    rewrite replace_start_svg. reflexivity.
  - assert (Hlen : (length (generatedFrames (ui w)) =? 0)%nat = false)
      by (rewrite Hframes; reflexivity).
    unfold handleDownloadZip. cbv zeta. rewrite Hlen.
    destruct (zipError env _); split; reflexivity.
Qed.

Lemma archive_keeps_svg_prefix_witness :
  length (generatedFrames (ui Samples.svg_sequence)) = 11 /\
  archive (generatedFrames (ui Samples.svg_sequence)) !! 0
    = Some ("frame_001.png", "data:image/svg+xml;base64,PHN2Zy8+") /\
  archive (generatedFrames (ui Samples.svg_sequence)) !! 1
    = Some ("frame_002.png", "FRAME1") /\
  downloads (handleDownloadZip (Samples.strict_archiver Samples.painter)
               Samples.svg_sequence) = [] /\
  alerts (handleDownloadZip (Samples.strict_archiver Samples.painter)
            Samples.svg_sequence) = ["Failed to create ZIP archive."].
Proof.
  assert (Hframes : generatedFrames (ui Samples.svg_sequence)
                    = data_url "svg+xml" "PHN2Zy8+"
                      :: tl (generatedFrames (ui Samples.svg_sequence)))
    by (vm_compute; reflexivity).
  destruct (archive_keeps_svg_prefix (Samples.strict_archiver Samples.painter)
              Samples.svg_sequence "PHN2Zy8+" _ Hframes) as (Hfirst & _ & Hrun).
  split; [vm_compute; reflexivity|].
  split; [exact Hfirst|].
  split; [vm_compute; reflexivity|].
  replace (zipError (Samples.strict_archiver Samples.painter)
             (archive (generatedFrames (ui Samples.svg_sequence))))
    with (Some "Invalid base64 input, it looks like a data url.") in Hrun
    by (vm_compute; reflexivity).
  exact Hrun.
Defined.

End ArchiveSpec.

(* ===================================================================== *)
(** * Further properties                                                  *)
(* ===================================================================== *)

(** ** Batches: invariants, counting, and requests that never settle *)

Module AsyncMore.
Import JS Async.
Local Open Scope list_scope.

Lemma values_length {A} (sl : list (slot A)) : forall vs,
  values sl = Some vs -> length vs = length sl.
Proof.
  induction sl as [|x sl IH]; intros vs H; simpl in H.
  - injection H as <-. reflexivity.
  - destruct x; try discriminate.
    destruct (values sl) as [vs'|]; [|discriminate].
    injection H as <-. simpl. rewrite (IH vs' eq_refl). reflexivity.
Qed.

Lemma successes_perm outcome l1 l2 :
  l1 ≡ₚ l2 -> successes outcome l1 = successes outcome l2.
Proof.
  unfold successes. induction 1 as [|x l1 l2 _ IH|x y l|l1 l2 l3 _ IH1 _ IH2]; simpl.
  - reflexivity.
  - destruct (succeeded (outcome x)); simpl; rewrite IH; reflexivity.
  - destruct (succeeded (outcome x)), (succeeded (outcome y)); reflexivity.
  - rewrite IH1. exact IH2.
Qed.

Lemma successes_cons outcome p l :
  successes outcome (p :: l)
    = (if succeeded (outcome p) then 1 else 0) + successes outcome l.
Proof. unfold successes. simpl. destruct (succeeded (outcome p)); reflexivity. Qed.

Section Runs.
Context {S A : Type}.
Variable then_effect : S -> S.
Variable then_value : nat -> string -> A.
Variable on_all : list A -> S -> S.
Variable on_error : string -> S -> S.
Variable outcome : nat -> completion string.

Let settle' := settle then_effect then_value on_all on_error outcome.

(** *** What every run keeps *)
Section Invariant.
Variable n : nat.
Variable P : S -> Prop.
Variable Q : A -> Prop.
Hypothesis Q_value : forall p v, outcome p = Return v -> Q (then_value p v).
Hypothesis P_then : forall s, P s -> P (then_effect s).
Hypothesis P_error : forall e s, P s -> P (on_error e s).
Hypothesis P_all : forall vs s, length vs = n -> Forall Q vs -> P s -> P (on_all vs s).

Let slot_ok (x : slot A) : Prop :=
  match x with
  | Done a => Q a
  | _ => True
  end.

Lemma values_Forall (sl : list (slot A)) : forall vs,
  Forall slot_ok sl -> values sl = Some vs -> Forall Q vs.
Proof.
  induction sl as [|x sl IH]; intros vs Hok H; simpl in H.
  - injection H as <-. constructor.
  - apply Forall_cons in Hok as [Hx Hok].
    destruct x as [|a|]; try discriminate.
    destruct (values sl) as [vs'|]; [|discriminate].
    injection H as <-. constructor; [exact Hx | apply IH; [exact Hok | reflexivity]].
Qed.

Lemma fold_settle_invariant order : forall s j,
  P s -> length (slots j) = n -> Forall slot_ok (slots j) ->
  P (fst (fold_left settle' order (s, j))).
Proof.
  induction order as [|p order IH]; intros s j Hs Hj Hok; simpl; [exact Hs|].
  destruct (slots j !! p) as [[| |]|]; try (apply IH; assumption).
  destruct (outcome p) as [v|e] eqn:Ho.
  - assert (Hok' : Forall slot_ok (<[p:=Done (then_value p v)]> (slots j))).
    { apply Forall_insert; [exact Hok | apply (Q_value p v Ho)]. }
    destruct (settled j).
    + apply IH; [apply P_then, Hs | simpl; rewrite length_insert; exact Hj | exact Hok'].
    + destruct (values _) as [vs|] eqn:Hvs.
      * apply IH; [|simpl; rewrite length_insert; exact Hj | exact Hok'].
        apply P_all; [| |apply P_then, Hs].
        -- rewrite (values_length _ _ Hvs), length_insert. exact Hj.
        -- apply (values_Forall _ _ Hok' Hvs).
      * apply IH; [apply P_then, Hs | simpl; rewrite length_insert; exact Hj | exact Hok'].
  - assert (Hok' : Forall slot_ok (<[p:=Failed]> (slots j))).
    { apply Forall_insert; [exact Hok | exact I]. }
    destruct (settled j);
      (apply IH; [|simpl; rewrite length_insert; exact Hj | exact Hok']);
      [exact Hs | apply P_error, Hs].
Qed.

Lemma run_invariant order s :
  P s -> P (run then_effect then_value on_all on_error outcome n order s).
Proof.
  intros Hs. unfold run, start.
  assert (Hok : Forall slot_ok (replicate n (@Waiting A))).
  { apply Forall_replicate. exact I. }
  destruct (values (replicate n Waiting)) as [vs|] eqn:Hvs.
  - apply fold_settle_invariant; [|apply length_replicate|exact Hok].
    apply P_all; [| |exact Hs].
    + rewrite (values_length _ _ Hvs). apply length_replicate.
    + apply (values_Forall _ _ Hok Hvs).
  - apply fold_settle_invariant; [exact Hs | apply length_replicate | exact Hok].
Qed.
End Invariant.

(** *** Counting the [.then] handlers *)
Section Counting.
Variable count : S -> nat.
Hypothesis count_then : forall s, count (then_effect s) = count s + 1.
Hypothesis count_error : forall e s, count (on_error e s) = count s.
Hypothesis count_all : forall vs s, count (on_all vs s) = count s.

Lemma fold_settle_count rest : forall s j,
  NoDup rest ->
  (forall p, p ∈ rest -> slots j !! p = Some Waiting) ->
  count (fst (fold_left settle' rest (s, j))) = count s + successes outcome rest.
Proof.
  induction rest as [|p rest IH]; intros s j Hnd Hw; simpl.
  - unfold successes. simpl. lia.
  - apply NoDup_cons in Hnd as [Hp Hnd].
    rewrite (Hw p) by left.
    assert (Hrest : forall x q, q ∈ rest -> <[p:=x]> (slots j) !! q = Some Waiting).
    { intros x q Hq. rewrite list_lookup_insert_ne by (intros ->; contradiction).
      apply Hw. right. exact Hq. }
    rewrite successes_cons.
    destruct (outcome p) as [v|e]; simpl.
    + destruct (settled j); [|destruct (values _)];
        (rewrite IH; [|exact Hnd|simpl; apply Hrest]);
        rewrite ?count_all, count_then; lia.
    + destruct (settled j);
        (rewrite IH; [|exact Hnd|simpl; apply Hrest]);
        rewrite ?count_error; lia.
Qed.

Lemma run_count n order s :
  NoDup order -> (forall p, p ∈ order -> p < n) ->
  count (run then_effect then_value on_all on_error outcome n order s)
    = count s + successes outcome order.
Proof.
  intros Hnd Hlt. unfold run, start.
  assert (Hw : forall p, p ∈ order -> replicate n (@Waiting A) !! p = Some Waiting).
  { intros p Hp. apply lookup_replicate_2, Hlt, Hp. }
  destruct (values (replicate n Waiting)) as [vs|];
    rewrite fold_settle_count by assumption; rewrite ?count_all; reflexivity.
Qed.
End Counting.

(** *** A request that never settles *)
Lemma pending_phase rest : forall s sl p0,
  sl !! p0 = Some Waiting ->
  p0 ∉ rest ->
  NoDup rest ->
  (forall p, p ∈ rest -> sl !! p = Some Waiting) ->
  (forall p, p ∈ rest -> succeeded (outcome p) = true) ->
  fold_left settle' rest (s, {| slots := sl; settled := false |})
    = (Nat.iter (length rest) then_effect s,
       {| slots := foldr (fun p acc =>
                     match outcome p with
                     | Return v => <[p:=Done (then_value p v)]> acc
                     | Throw _ => acc
                     end) sl (rev rest);
          settled := false |}).
Proof.
  induction rest as [|p rest IH]; intros s sl p0 Hp0 Hnotin Hnd Hw Hok; [reflexivity|].
  apply NoDup_cons in Hnd as [Hp Hnd].
  assert (Hne : p <> p0) by (intros ->; apply Hnotin; left).
  simpl. rewrite (Hw p) by left.
  pose proof (Hok p ltac:(left)) as Hsucc.
  destruct (outcome p) as [v|e] eqn:Ho; [|discriminate].
  assert (Hp0' : <[p:=Done (then_value p v)]> sl !! p0 = Some Waiting).
  { rewrite list_lookup_insert_ne by exact Hne. exact Hp0. }
  simpl. rewrite (AsyncFacts.values_not_done _ _ Hp0').
  rewrite (IH (then_effect s) _ p0 Hp0').
  - rewrite <- Nat.iter_succ_r. f_equal. f_equal.
    rewrite foldr_app. simpl. rewrite Ho. reflexivity.
  - intros Hin. apply Hnotin. right. exact Hin.
  - exact Hnd.
  - intros q Hq. rewrite list_lookup_insert_ne by (intros ->; contradiction).
    apply Hw. right. exact Hq.
  - intros q Hq. apply Hok. right. exact Hq.
Qed.

Lemma run_pending n order s p0 :
  p0 < n -> p0 ∉ order ->
  NoDup order -> (forall p, p ∈ order -> p < n) ->
  (forall p, p ∈ order -> succeeded (outcome p) = true) ->
  run then_effect then_value on_all on_error outcome n order s
    = Nat.iter (length order) then_effect s.
Proof.
  intros Hp0 Hnotin Hnd Hlt Hok. unfold run, start.
  assert (Hw : replicate n (@Waiting A) !! p0 = Some Waiting)
    by (apply lookup_replicate_2, Hp0).
  rewrite (AsyncFacts.values_not_done _ _ Hw).
  assert (Hall : forall p, p ∈ order -> replicate n (@Waiting A) !! p = Some Waiting).
  { intros p Hp. apply lookup_replicate_2, Hlt, Hp. }
  pose proof (pending_phase order s _ p0 Hw Hnotin Hnd Hall Hok) as Hrun.
  unfold settle' in Hrun. rewrite Hrun. reflexivity.
Qed.
End Runs.

End AsyncMore.

(** ** The orchestrators, continued *)

Module OrchestratorSpec.
Import JS App.
Local Open Scope list_scope.

Lemma nonempty_length (frames : list string) :
  frames <> [] -> (length frames =? 0)%nat = false.
Proof. destruct frames; [congruence | reflexivity]. Qed.

(** X1. When every per-frame request succeeds, whatever the order in which
    they settle, the upscaled sequence has the length of the old one and
    holds at each position the upscaled rendering of the frame that was
    there; no alert is raised, the counters read L of L, and neither
    upscaling nor generating is in progress afterwards. *)
Theorem upscale_all_succeed (env : Env) (order : list nat) (w : World)
    (aspect : string) (upscaled : nat -> string) :
  generatedFrames (ui w) <> [] ->
  key_stage env = true ->
  getClosestAspectRatio env (default "" (generatedFrames (ui w) !! 0)) = Return aspect ->
  (forall p, p < length (generatedFrames (ui w)) ->
     GeminiService.upscaleFrame (ai env)
       (default "" (generatedFrames (ui w) !! p)) aspect = Return (upscaled p)) ->
  order ≡ₚ seq 0 (length (generatedFrames (ui w))) ->
  generatedFrames (ui (handleUpscale env order w))
    = upscaled <$> seq 0 (length (generatedFrames (ui w))) /\
  length (generatedFrames (ui (handleUpscale env order w)))
    = length (generatedFrames (ui w)) /\
  alerts (handleUpscale env order w) = alerts w /\
  isUpscaling (ui (handleUpscale env order w)) = false /\
  isGenerating (status (ui (handleUpscale env order w))) = false /\
  completedFrames (status (ui (handleUpscale env order w)))
    = length (generatedFrames (ui w)) /\
  totalFrames (status (ui (handleUpscale env order w)))
    = length (generatedFrames (ui w)).
Proof.
  intros Hne Hkey Haspect Hall Hperm.
  set (L := length (generatedFrames (ui w))) in *.
  set (w1 := setStatus (restart_count L) (setIsUpscaling true w)).
  assert (Hrun : handleUpscale env order w
    = upscale_finally
        (setGeneratedFrames (upscaled <$> seq 0 L)
           (Nat.iter L (setStatus bump) w1))).
  { unfold handleUpscale. cbv zeta. fold L.
    unfold L at 1. rewrite (nonempty_length _ Hne), Hkey, Haspect. cbn [negb].
    rewrite (AsyncFacts.run_fulfilled _ _ _ _ _ L upscaled Hall _ _ Hperm).
    rewrite (SortFacts.sorted_frames_tagged (fun p => p)) by (intros; lia).
    reflexivity. }
  rewrite Hrun.
  assert (Hframes : generatedFrames
            (ui (upscale_finally (setGeneratedFrames (upscaled <$> seq 0 L)
                   (Nat.iter L (setStatus bump) w1))))
          = upscaled <$> seq 0 L) by reflexivity.
  rewrite !Hframes.
  split; [reflexivity|].
  split; [rewrite length_fmap, length_seq; reflexivity|].
  split; [apply (AppSpec.iter_bump_alerts L w1)|].
  split; [reflexivity|]. split; [reflexivity|].
  split.
  - change (completedFrames (status (ui (Nat.iter L (setStatus bump) w1))) = L).
    rewrite AppSpec.iter_bump_count. reflexivity.
  - change (totalFrames (status (ui (Nat.iter L (setStatus bump) w1))) = L).
    clear. induction L as [|k IH] in |- * at 1; [reflexivity | exact IH].
Qed.

Lemma upscale_all_succeed_witness :
  generatedFrames
    (ui (handleUpscale (Samples.browser Samples.painter) (Samples.reversed 3)
           Samples.showing))
  = [ "data:image/png;base64,UP/9j/4AAQ"; "data:image/png;base64,UPAAAA";
      "data:image/png;base64,UPBBBB" ].
Proof.
  refine (proj1 (upscale_all_succeed (Samples.browser Samples.painter)
                   (Samples.reversed 3) Samples.showing "16:9"
                   (fun p => "data:image/png;base64,UP"
                             +:+ replace_start GeminiService.input_prefix
                                   (default "" (generatedFrames (ui Samples.showing) !! p)))
                   _ _ _ _ _)).
  - discriminate.
  - reflexivity.
  - vm_compute. reflexivity.
  - intros p _. reflexivity.
  - symmetry. apply Permutation_rev.
Defined.

(** *** The status once a generation has settled *)

Lemma iter_bump_total k w :
  totalFrames (status (ui (Nat.iter k (setStatus bump) w))) = totalFrames (status (ui w)).
Proof. induction k as [|k IH]; simpl; [reflexivity | exact IH]. Qed.

Lemma all_succeeded_values (outcome : nat -> completion string) n :
  forallb (fun p => succeeded (outcome p)) (seq 0 n) = true ->
  forall p, p < n ->
    outcome p = Return (match outcome p with Return v => v | Throw _ => "" end).
Proof.
  intros H p Hp. rewrite forallb_forall in H.
  specialize (H p). rewrite in_seq in H.
  destruct (outcome p); [reflexivity|]. discriminate H. lia.
Qed.

Lemma some_failed (outcome : nat -> completion string) n :
  forallb (fun p => succeeded (outcome p)) (seq 0 n) = false ->
  exists p e, p < n /\ outcome p = Throw e.
Proof.
  intros H. apply not_true_iff_false in H.
  destruct (List.existsb (fun p => negb (succeeded (outcome p))) (seq 0 n)) eqn:Hex.
  - apply existsb_exists in Hex as (p & Hp & Hneg). rewrite in_seq in Hp.
    destruct (outcome p) as [v|e] eqn:Ho; [discriminate|].
    exists p, e. split; [lia | exact Ho].
  - exfalso. apply H. apply forallb_forall. intros p Hp.
    destruct (succeeded (outcome p)) eqn:Hs; [reflexivity|].
    assert (Htrue : List.existsb (fun p => negb (succeeded (outcome p))) (seq 0 n) = true).
    { apply existsb_exists. exists p. rewrite Hs. split; [exact Hp | reflexivity]. }
    congruence.
Qed.

(** X2. Once the ten requests have settled, in whatever order and whether
    or not some failed, the completed-frame count is the number of
    requests that succeeded, generation is no longer in progress, the
    total is ten, and the error is set exactly when some request
    failed. *)
Theorem generate_settled_status (env : Env) (order : list nat) (w : World)
    (seed : string) :
  originalImage (ui w) = Some seed ->
  seed <> "" ->
  order ≡ₚ seq 0 TOTAL_FRAMES ->
  completedFrames (status (ui (handleGenerate env order w)))
    = successes
        (fun p => GeminiService.generateMotionFrame (ai env) seed (p + 1) TOTAL_FRAMES
                    (promptDescription (ui w)) (selectedDirection (ui w)))
        (seq 0 TOTAL_FRAMES) /\
  isGenerating (status (ui (handleGenerate env order w))) = false /\
  totalFrames (status (ui (handleGenerate env order w))) = TOTAL_FRAMES /\
  error (status (ui (handleGenerate env order w)))
    = if forallb
           (fun p => succeeded
              (GeminiService.generateMotionFrame (ai env) seed (p + 1) TOTAL_FRAMES
                 (promptDescription (ui w)) (selectedDirection (ui w))))
           (seq 0 TOTAL_FRAMES)
      then None else Some generation_failed_msg.
Proof.
  intros Hseed Hne Hperm.
  set (outcome := fun p => GeminiService.generateMotionFrame (ai env) seed (p + 1)
                    TOTAL_FRAMES (promptDescription (ui w)) (selectedDirection (ui w))).
  set (w1 := setGeneratedFrames []
               (setStatus (fun _ => {| isGenerating := true; completedFrames := 0;
                                       totalFrames := TOTAL_FRAMES; error := None |}) w)).
  assert (Hrun : handleGenerate env order w
    = Async.run (setStatus bump)
        (fun p frame => {| index := p + 1; frame := frame |})
        (fun results w' =>
           setStatus not_generating
             (setGeneratedFrames (seed :: sorted_frames results) w'))
        (fun _ w' => setStatus generation_failed w')
        outcome TOTAL_FRAMES order w1).
  { unfold handleGenerate. rewrite Hseed, (AppSpec.truthy_nonempty seed Hne). reflexivity. }
  rewrite Hrun.
  match goal with
  | |- context [forallb ?f ?l] =>
      change (forallb f l) with (forallb (fun p => succeeded (outcome p)) l)
  end.
  split.
  { rewrite (AsyncMore.run_count _ _ _ _ outcome
               (fun w' => completedFrames (status (ui w')))).
    - rewrite (AsyncMore.successes_perm outcome _ _ Hperm). reflexivity.
    - intros s. reflexivity.
    - intros e s. reflexivity.
    - intros vs s. reflexivity.
    - rewrite Hperm. apply NoDup_seq.
    - intros p Hp. rewrite Hperm in Hp. apply elem_of_seq in Hp. lia. }
  destruct (forallb (fun p => succeeded (outcome p)) (seq 0 TOTAL_FRAMES)) eqn:Hall.
  - rewrite (AsyncFacts.run_fulfilled _ _ _ _ outcome TOTAL_FRAMES _
               (all_succeeded_values outcome TOTAL_FRAMES Hall) _ _ Hperm).
    split; [reflexivity|]. split.
    + apply (iter_bump_total TOTAL_FRAMES w1).
    + destruct (AppSpec.iter_bump_flags TOTAL_FRAMES w1) as (_ & _ & He). exact He.
  - destruct (some_failed outcome TOTAL_FRAMES Hall) as (p & e & Hp & Hthrow).
    destruct (AsyncFacts.run_rejected (setStatus bump)
                (fun p frame => {| index := p + 1; frame := frame |})
                (fun results w' =>
                   setStatus not_generating
                     (setGeneratedFrames (seed :: sorted_frames results) w'))
                (fun _ w' => setStatus generation_failed w')
                outcome TOTAL_FRAMES order w1 p e Hp Hthrow)
      as (k1 & k2 & q & e' & _ & ->).
    { rewrite Hperm. apply elem_of_seq. lia. }
    destruct (AppSpec.iter_bump_flags k2
                (setStatus generation_failed (Nat.iter k1 (setStatus bump) w1)))
      as (_ & -> & ->).
    rewrite iter_bump_total.
    split; [reflexivity|]. split; [|reflexivity].
    apply (iter_bump_total k1 w1).
Qed.

Lemma generate_settled_status_witness :
  completedFrames
    (status (ui (handleGenerate (Samples.browser (Samples.flaky 3))
                   (Samples.reversed 10) Samples.showing))) = 9 /\
  error
    (status (ui (handleGenerate (Samples.browser (Samples.flaky 3))
                   (Samples.reversed 10) Samples.showing)))
    = Some generation_failed_msg.
Proof.
  destruct (generate_settled_status (Samples.browser (Samples.flaky 3))
              (Samples.reversed 10) Samples.showing Samples.jpeg_seed)
    as (Hcount & _ & _ & Herror).
  - reflexivity.
  - discriminate.
  - symmetry. apply Permutation_rev.
  - split; [exact Hcount | exact Herror].
Defined.

(** *** A request that never settles *)

(** X3. There is no timeout: when the requests that settle all succeed
    but one of the ten never settles, generation stays in progress, the
    sequence stays empty, no error is recorded, the count is the number
    of requests that came back, and the generate button stays
    disabled. *)
Theorem generate_stays_in_progress (env : Env) (order : list nat) (w : World)
    (seed : string) (missing : nat) :
  originalImage (ui w) = Some seed ->
  seed <> "" ->
  NoDup order ->
  (forall p, p ∈ order -> p < TOTAL_FRAMES) ->
  missing < TOTAL_FRAMES ->
  missing ∉ order ->
  (forall p, p ∈ order ->
     succeeded (GeminiService.generateMotionFrame (ai env) seed (p + 1) TOTAL_FRAMES
                  (promptDescription (ui w)) (selectedDirection (ui w))) = true) ->
  isGenerating (status (ui (handleGenerate env order w))) = true /\
  generatedFrames (ui (handleGenerate env order w)) = [] /\
  error (status (ui (handleGenerate env order w))) = None /\
  completedFrames (status (ui (handleGenerate env order w))) = length order /\
  Session.generate_disabled (handleGenerate env order w) = true.
Proof.
  intros Hseed Hne Hnd Hlt Hmissing Hnotin Hok.
  set (w1 := setGeneratedFrames []
               (setStatus (fun _ => {| isGenerating := true; completedFrames := 0;
                                       totalFrames := TOTAL_FRAMES; error := None |}) w)).
  assert (Hrun : handleGenerate env order w = Nat.iter (length order) (setStatus bump) w1).
  { unfold handleGenerate. rewrite Hseed, (AppSpec.truthy_nonempty seed Hne).
    apply (AsyncMore.run_pending _ _ _ _ _ TOTAL_FRAMES order _ missing);
      assumption. }
  rewrite Hrun.
  destruct (AppSpec.iter_bump_flags (length order) w1) as (Hup & Hgen & Herr).
  assert (Hflag : isGenerating (status (ui (Nat.iter (length order) (setStatus bump) w1)))
                  = true) by (rewrite Hgen; reflexivity).
  split; [exact Hflag|].
  split; [rewrite AppSpec.iter_bump_frames; reflexivity|].
  split; [rewrite Herr; reflexivity|].
  split; [rewrite AppSpec.iter_bump_count; reflexivity|].
  unfold Session.generate_disabled. rewrite Hflag.
  rewrite orb_true_r. reflexivity.
Qed.

Lemma generate_stays_in_progress_witness :
  isGenerating
    (status (ui (handleGenerate (Samples.browser Samples.painter) [4; 0; 7]
                   Samples.showing))) = true /\
  completedFrames
    (status (ui (handleGenerate (Samples.browser Samples.painter) [4; 0; 7]
                   Samples.showing))) = 3.
Proof.
  destruct (generate_stays_in_progress (Samples.browser Samples.painter) [4; 0; 7]
              Samples.showing Samples.jpeg_seed 9)
    as (Hflag & _ & _ & Hcount & _).
  - reflexivity.
  - discriminate.
  - repeat constructor; rewrite ?elem_of_cons, ?elem_of_nil; intros H;
      repeat (destruct H as [H|H]; [discriminate|]); exact H.
  - intros p Hp. rewrite !elem_of_cons, elem_of_nil in Hp.
    destruct Hp as [->|[->|[->|[]]]]; unfold TOTAL_FRAMES; lia.
  - unfold TOTAL_FRAMES. lia.
  - rewrite !elem_of_cons, elem_of_nil. intros [H|[H|[H|[]]]]; discriminate.
  - intros p _. reflexivity.
  - split; [exact Hflag | exact Hcount].
Defined.

(** *** Upscale: the steps before the requests *)

(** X4. The key check stops the handler exactly when [window.aistudio]
    offers [hasSelectedApiKey] and either that call rejects, or it answers
    [false] and [openSelectKey] rejects; and when it stops, nothing
    changes: no alert, no flag, the same sequence. *)
Theorem upscale_key_check (env : Env) (order : list nat) (w : World) :
  (key_stage env = false <->
   exists studio,
     aistudio env = Some studio /\
     ((exists e, hasSelectedApiKey studio = Some (Throw e)) \/
      (hasSelectedApiKey studio = Some (Return false) /\
       exists e, openSelectKey studio = Some (Throw e)))) /\
  (key_stage env = false -> handleUpscale env order w = w).
Proof.
  split.
  - unfold key_stage. split.
    + destruct (aistudio env) as [studio|]; [|discriminate].
      intros H. exists studio. split; [reflexivity|].
      destruct (hasSelectedApiKey studio) as [[hasKey|e]|]; [| |discriminate].
      * right. destruct hasKey; [discriminate|]. split; [reflexivity|].
        simpl in H. destruct (openSelectKey studio) as [[u|e]|]; try discriminate.
        exists e. reflexivity.
      * left. exists e. reflexivity.
    + intros (studio & -> & [[e ->]|[-> [e ->]]]); reflexivity.
  - intros Hkey. unfold handleUpscale. cbv zeta. rewrite Hkey.
    destruct (length (generatedFrames (ui w)) =? 0)%nat; reflexivity.
Qed.

Lemma upscale_key_check_witness :
  handleUpscale (Samples.key_refused Samples.painter) (Samples.in_order 3)
    Samples.showing = Samples.showing.
Proof.
  apply (upscale_key_check (Samples.key_refused Samples.painter)
           (Samples.in_order 3) Samples.showing).
  reflexivity.
Defined.

End OrchestratorSpec.

(** ** The exports *)

Module ExportSpec.
Import JS App Exports.
Local Open Scope list_scope.

Lemma draw_frames_all_load env frames :
  all_load env frames = true -> draw_frames env frames = Return (slideshow frames).
Proof.
  unfold all_load. induction frames as [|f frames IH]; simpl; [reflexivity|].
  intros H. apply andb_true_iff in H as [Hf Hrest].
  destruct (loadImage env f); [|discriminate]. rewrite (IH Hrest). reflexivity.
Qed.

Lemma draw_frames_some_fail env frames :
  all_load env frames = false -> exists e, draw_frames env frames = Throw e.
Proof.
  unfold all_load. induction frames as [|f frames IH]; simpl; [discriminate|].
  intros H. destruct (loadImage env f) as [dims|e]; [|exists e; reflexivity].
  simpl in H. destruct (IH H) as [e ->]. exists e. reflexivity.
Qed.

(** X5. A video export of a non-empty sequence never touches the sequence
    or the status and always ends with the downloading flag cleared.  It
    either triggers exactly one download and no alert, or no download and
    exactly one alert.  The download happens when the canvas has a 2d
    context, every frame decodes and a container is supported; it is
    named [motion-gen-<now>.<ext>] and shows every frame, in sequence
    order, for 250 ms each.  WebM is preferred; MP4 is used only when WebM
    is not supported. *)
Theorem video_export_outcome (env : Env) (w : World) :
  generatedFrames (ui w) <> [] ->
  generatedFrames (ui (handleDownloadVideo env w)) = generatedFrames (ui w) /\
  status (ui (handleDownloadVideo env w)) = status (ui w) /\
  isDownloading (ui (handleDownloadVideo env w)) = false /\
  match recording env (generatedFrames (ui w)) with
  | Some mime =>
      downloads (handleDownloadVideo env w)
        = downloads w
          ++ [ {| filename := "motion-gen-" +:+ String_of (now env) +:+ "."
                              +:+ (if isTypeSupported env "video/webm"
                                   then "webm" else "mp4");
                  blob := VideoBlob mime (slideshow (generatedFrames (ui w))) |} ] /\
      alerts (handleDownloadVideo env w) = alerts w /\
      mime = (if isTypeSupported env "video/webm" then "video/webm" else "video/mp4")
  | None =>
      downloads (handleDownloadVideo env w) = downloads w /\
      alerts (handleDownloadVideo env w)
        = alerts w ++ [video_alert env (generatedFrames (ui w))]
  end.
Proof.
  intros Hne. unfold handleDownloadVideo, recording, video_alert. cbv zeta.
  rewrite (OrchestratorSpec.nonempty_length _ Hne).
  destruct (generatedFrames (ui w)) as [|f frames] eqn:Hframes; [congruence|].
  change (default "" ((f :: frames) !! 0)) with f.
  destruct (canvasContext env); cbn [negb andb].
  2: { destruct (pick_mime env); repeat split; exact Hframes. }
  destruct (all_load env (f :: frames)) eqn:Hload.
  - assert (Hfirst : exists dims, loadImage env f = Return dims).
    { unfold all_load in Hload. simpl in Hload.
      destruct (loadImage env f) as [dims|e]; [exists dims; reflexivity|discriminate]. }
    destruct Hfirst as [dims ->].
    rewrite (draw_frames_all_load env _ Hload).
    unfold pick_mime, video_filename.
    destruct (isTypeSupported env "video/webm"); [repeat split; exact Hframes|].
    destruct (isTypeSupported env "video/mp4"); repeat split; exact Hframes.
  - destruct (loadImage env f) as [dims|e] eqn:Hf; cbn [succeeded].
    + destruct (draw_frames_some_fail env _ Hload) as [e ->].
      destruct (pick_mime env); repeat split; exact Hframes.
    + destruct (pick_mime env); repeat split; exact Hframes.
Qed.

Lemma video_export_outcome_witness :
  downloads (handleDownloadVideo (Samples.safari Samples.painter) Samples.showing)
  = [ {| filename := "motion-gen-1700000000000.mp4";
         blob := VideoBlob "video/mp4"
                   [ (Samples.jpeg_seed, 250);
                     ("data:image/png;base64,AAAA", 250);
                     ("data:image/png;base64,BBBB", 250) ] |} ] /\
  alerts (handleDownloadVideo (Samples.no_recorder Samples.painter) Samples.showing)
  = [video_unsupported_msg].
Proof.
  assert (Hne : generatedFrames (ui Samples.showing) <> []) by discriminate.
  destruct (video_export_outcome (Samples.safari Samples.painter) Samples.showing Hne)
    as (_ & _ & _ & Hsafari).
  destruct (video_export_outcome (Samples.no_recorder Samples.painter)
              Samples.showing Hne) as (_ & _ & _ & Hnone).
  split; [exact (proj1 Hsafari) | exact (proj2 Hnone)].
Defined.

(** *** The archive *)

Lemma imap_entry_names (frames : list string) :
  fst <$> imap entry frames = frame_filename <$> seq 0 (length frames).
Proof.
  apply list_eq. intros i.
  rewrite !list_lookup_fmap, list_lookup_imap.
  destruct (frames !! i) as [x|] eqn:Hi.
  - rewrite lookup_seq_lt by (apply lookup_lt_Some in Hi; exact Hi). reflexivity.
  - rewrite lookup_seq_ge by (apply lookup_ge_None in Hi; exact Hi). reflexivity.
Qed.

(** X6. An archive export of a non-empty sequence never touches the
    sequence and always ends with the downloading flag cleared.  When the
    archive can be built, exactly one file [motion-gen-frames-<now>.zip]
    is downloaded and no alert is raised; it holds one entry per frame,
    the entry of position [i] is named [frame_] + the zero-padded ordinal
    [i+1] + [.png], and the names are pairwise distinct, so that no entry
    replaces another, however long the sequence.  When it cannot be
    built, nothing is downloaded and the alert is raised. *)
Theorem zip_export_outcome (env : Env) (w : World) :
  generatedFrames (ui w) <> [] ->
  generatedFrames (ui (handleDownloadZip env w)) = generatedFrames (ui w) /\
  isDownloading (ui (handleDownloadZip env w)) = false /\
  length (archive (generatedFrames (ui w))) = length (generatedFrames (ui w)) /\
  fst <$> archive (generatedFrames (ui w))
    = expected_name <$> seq 0 (length (generatedFrames (ui w))) /\
  NoDup (fst <$> archive (generatedFrames (ui w))) /\
  match zipError env (archive (generatedFrames (ui w))) with
  | None =>
      downloads (handleDownloadZip env w)
        = downloads w
          ++ [ {| filename := "motion-gen-frames-" +:+ String_of (now env) +:+ ".zip";
                  blob := ZipBlob (archive (generatedFrames (ui w))) |} ] /\
      alerts (handleDownloadZip env w) = alerts w
  | Some _ =>
      downloads (handleDownloadZip env w) = downloads w /\
      alerts (handleDownloadZip env w) = alerts w ++ [zip_failed_msg]
  end.
Proof.
  intros Hne.
  assert (Hnames : fst <$> archive (generatedFrames (ui w))
                   = frame_filename <$> seq 0 (length (generatedFrames (ui w)))).
  { rewrite ArchiveSpec.archive_entries. apply imap_entry_names. }
  unfold handleDownloadZip. cbv zeta.
  rewrite (OrchestratorSpec.nonempty_length _ Hne).
  split; [destruct (zipError env _); reflexivity|].
  split; [destruct (zipError env _); reflexivity|].
  split; [rewrite ArchiveSpec.archive_entries; apply length_imap|].
  split.
  { rewrite Hnames. apply list_fmap_ext. intros i k _.
    apply ArchiveSpec.frame_filename_expected. }
  split.
  { rewrite Hnames. apply NoDup_fmap_2_strong; [|apply NoDup_seq].
    intros i j _ _. apply ArchiveSpec.frame_filename_inj. }
  destruct (zipError env _); split; reflexivity.
Qed.

Lemma zip_export_outcome_witness :
  fst <$> archive (generatedFrames (ui Samples.showing))
    = ["frame_001.png"; "frame_002.png"; "frame_003.png"] /\
  NoDup (fst <$> archive (generatedFrames (ui Samples.showing))).
Proof.
  assert (Hne : generatedFrames (ui Samples.showing) <> []) by discriminate.
  destruct (zip_export_outcome (Samples.browser Samples.painter) Samples.showing Hne)
    as (_ & _ & _ & Hnames & Hdistinct & _).
  split; [exact Hnames | exact Hdistinct].
Defined.

End ExportSpec.

(** ** The two prefix patterns *)

Module PatternSpec.
Import JS App.
Local Open Scope list_scope.

Lemma strip_lit_Some l : forall s r, strip_lit l s = Some r -> s = l +:+ r.
Proof.
  induction l as [|a l IH]; intros s r H; simpl in H.
  - injection H as ->. reflexivity.
  - destruct s as [|b s]; [discriminate|].
    destruct (Ascii.eqb a b) eqn:Hab; [|discriminate].
    apply Ascii.eqb_eq in Hab. subst b.
    rewrite ArchiveSpec.app_string_cons, (IH s r H). reflexivity.
Qed.

Lemma greedy_Some k n s r :
  greedy k n s = Some r -> exists m, 1 <= m <= n /\ k (drop_chars m s) = Some r.
Proof.
  induction n as [|n IH]; [discriminate|].
  cbn [greedy]. destruct (k (drop_chars (Datatypes.S n) s)) as [r'|] eqn:Hk.
  - intros [= <-]. exists (Datatypes.S n). split; [lia | exact Hk].
  - intros H. destruct (IH H) as (m & Hm & Hkm). exists m. split; [lia | exact Hkm].
Qed.

Lemma first_alt_Some k alts s r :
  first_alt k alts s = Some r ->
  exists a s', a ∈ alts /\ strip_lit a s = Some s' /\ k s' = Some r.
Proof.
  induction alts as [|a alts IH]; [discriminate|].
  cbn [first_alt]. destruct (strip_lit a s) as [s'|] eqn:Ha.
  - destruct (k s') as [r'|] eqn:Hk.
    + intros [= <-]. exists a, s'. repeat split; [left | exact Ha | exact Hk].
    + intros H. destruct (IH H) as (b & t & Hb & H1 & H2).
      exists b, t. repeat split; [right; exact Hb | exact H1 | exact H2].
  - intros H. destruct (IH H) as (b & t & Hb & H1 & H2).
    exists b, t. repeat split; [right; exact Hb | exact H1 | exact H2].
Qed.

Lemma take_drop_word m : forall s,
  m <= word_run s ->
  take_chars m s +:+ drop_chars m s = s /\
  all_word (take_chars m s) = true /\
  String.length (take_chars m s) = m.
Proof.
  induction m as [|m IH]; intros s H; [repeat split|].
  destruct s as [|c s]; simpl in H; [lia|].
  destruct (is_word_char c) eqn:Hc; [|lia].
  destruct (IH s ltac:(lia)) as (H1 & H2 & H3).
  cbn [take_chars drop_chars all_word]. rewrite ArchiveSpec.app_string_cons, H1, Hc, H2.
  simpl. rewrite H3. repeat split.
Qed.

(** The archive pattern matches exactly the strings that begin with
    [data:image/], a non-empty run of word characters and [;base64,]. *)
Lemma data_url_prefix_exact s d :
  match_start data_url_prefix s = Some d <->
  exists t, t <> "" /\ all_word t = true /\ s = data_url t d.
Proof.
  unfold data_url_prefix, data_url. split.
  - cbn [match_start].
    destruct (strip_lit "data:image/" s) as [s0|] eqn:H0; [|discriminate].
    intros Hg. apply greedy_Some in Hg as (m & Hm & Hk).
    destruct (strip_lit ";base64," (drop_chars m s0)) as [s1|] eqn:H1; [|discriminate].
    injection Hk as ->.
    destruct (take_drop_word m s0 ltac:(lia)) as (Hsplit & Hword & Hlen).
    exists (take_chars m s0). split; [|split; [exact Hword|]].
    + intros Hempty. rewrite Hempty in Hlen. simpl in Hlen. lia.
    + rewrite (strip_lit_Some _ _ _ H0). f_equal.
      rewrite <- (strip_lit_Some _ _ _ H1). symmetry. exact Hsplit.
  - intros (t & Hne & Hword & ->).
    cbn [match_start]. rewrite ArchiveSpec.strip_lit_app.
    change (";base64," +:+ d) with (String ";" ("base64," +:+ d)).
    rewrite (ArchiveSpec.word_run_app t ";" _ Hword eq_refl).
    destruct (String.length t) as [|len] eqn:Hlen.
    { destruct t; [congruence | discriminate]. }
    cbn [greedy]. rewrite <- Hlen, ArchiveSpec.drop_chars_app.
    change (String ";" ("base64," +:+ d)) with (";base64," +:+ d).
    rewrite ArchiveSpec.strip_lit_app. reflexivity.
Qed.

(** The service pattern matches exactly the strings that begin with
    [data:image/], one of the four subtypes and [;base64,]. *)
Lemma input_prefix_exact s d :
  match_start GeminiService.input_prefix s = Some d <->
  exists t, t ∈ ["png"; "jpeg"; "jpg"; "webp"] /\ s = data_url t d.
Proof.
  unfold GeminiService.input_prefix, data_url. split.
  - cbn [match_start].
    destruct (strip_lit "data:image/" s) as [s0|] eqn:H0; [|discriminate].
    intros Ha. apply first_alt_Some in Ha as (a & s' & Hin & Hs' & Hk).
    destruct (strip_lit ";base64," s') as [s1|] eqn:H1; [|discriminate].
    injection Hk as ->.
    exists a. split; [exact Hin|].
    rewrite (strip_lit_Some _ _ _ H0), (strip_lit_Some _ _ _ Hs'),
      (strip_lit_Some _ _ _ H1). reflexivity.
  - intros (t & Hin & ->). rewrite !elem_of_cons, elem_of_nil in Hin.
    destruct Hin as [->|[->|[->|[->|[]]]]]; reflexivity.
Qed.

Lemma replace_start_unmatched p s :
  match_start p s = None -> replace_start p s = s.
Proof. unfold replace_start. intros ->. reflexivity. Qed.

Lemma replace_start_matched p s d :
  match_start p s = Some d -> replace_start p s = d.
Proof. unfold replace_start. intros ->. reflexivity. Qed.

End PatternSpec.

(** ** What is sent to the service and what is read from its answer *)

Module ServiceMore.
Import JS GeminiService.
Local Open Scope list_scope.

(** X7. Both requests label the image [image/jpeg] whatever its format
    and carry the same payload.  The [data:image/...;base64,] prefix is
    removed exactly when the subtype is png, jpeg, jpg or webp; any other
    input, a GIF or SVG data URL included, is sent as it is, prefix and
    all. *)
Theorem request_payload (base64Image : string) (frameIndex totalFrames : nat)
    (description direction aspect : string) :
  imageMimeType (motion_request base64Image frameIndex totalFrames description direction)
    = "image/jpeg" /\
  imageMimeType (upscale_request base64Image aspect) = "image/jpeg" /\
  imageData (upscale_request base64Image aspect)
    = imageData (motion_request base64Image frameIndex totalFrames description direction) /\
  (forall t d,
     t ∈ ["png"; "jpeg"; "jpg"; "webp"] ->
     base64Image = App.data_url t d ->
     imageData (motion_request base64Image frameIndex totalFrames description direction)
       = d) /\
  ((forall t d,
      t ∈ ["png"; "jpeg"; "jpg"; "webp"] -> base64Image <> App.data_url t d) ->
   imageData (motion_request base64Image frameIndex totalFrames description direction)
     = base64Image).
Proof.
  split; [reflexivity|]. split; [reflexivity|]. split; [reflexivity|].
  cbn [imageData motion_request]. split.
  - intros t d Ht ->. apply PatternSpec.replace_start_matched.
    apply PatternSpec.input_prefix_exact. exists t. split; [exact Ht | reflexivity].
  - intros Hnone. apply PatternSpec.replace_start_unmatched.
    destruct (match_start input_prefix base64Image) as [d|] eqn:Hm; [|reflexivity].
    apply PatternSpec.input_prefix_exact in Hm as (t & Ht & Heq).
    destruct (Hnone t d Ht Heq).
Qed.

Lemma gif_is_not_supported t d :
  t ∈ ["png"; "jpeg"; "jpg"; "webp"] ->
  "data:image/gif;base64,R0lGODlh" <> App.data_url t d.
Proof.
  intros Ht Heq.
  assert (Hm : match_start input_prefix "data:image/gif;base64,R0lGODlh" = Some d).
  { apply PatternSpec.input_prefix_exact. exists t. split; [exact Ht | exact Heq]. }
  vm_compute in Hm. discriminate.
Qed.

Lemma request_payload_witness :
  imageData (motion_request "data:image/webp;base64,UklGRg==" 1 10 "A bird flying" "Up")
    = "UklGRg==" /\
  imageData (motion_request "data:image/gif;base64,R0lGODlh" 1 10 "A bird flying" "Up")
    = "data:image/gif;base64,R0lGODlh".
Proof.
  split.
  - apply (request_payload "data:image/webp;base64,UklGRg==" 1 10
             "A bird flying" "Up" "1:1") with (t := "webp").
    + rewrite !elem_of_cons. auto.
    + reflexivity.
  - apply (request_payload "data:image/gif;base64,R0lGODlh" 1 10
             "A bird flying" "Up" "1:1").
    apply gif_is_not_supported.
Defined.

(** *** Reading the answer *)

Lemma first_image_skips pre p post :
  Forall (fun q => part_has_image q = false) pre ->
  first_image (pre ++ p :: post) = first_image (p :: post).
Proof.
  induction 1 as [|q pre Hq _ IH]; [reflexivity|].
  simpl. unfold part_has_image in Hq.
  destruct (inlineData q) as [i|]; [rewrite Hq|]; exact IH.
Qed.

(** X8. The frame is taken from the first part of the first candidate
    that carries non-empty inline data: parts before it without data are
    skipped, and later parts and other candidates are not looked at. *)
Theorem first_image_part_wins (ai : Service) (base64Image : string)
    (frameIndex totalFrames : nat) (description direction aspect : string)
    (resp : Response) (c : Candidate) (cs : list Candidate) (ct : Content)
    (pre post : list Part) (p : Part) (inline : InlineData) (d : string) :
  candidates resp = Some (c :: cs) ->
  content c = Some ct ->
  parts ct = Some (pre ++ p :: post) ->
  Forall (fun q => part_has_image q = false) pre ->
  inlineData p = Some inline ->
  data inline = Some d ->
  d <> "" ->
  (ai (motion_request base64Image frameIndex totalFrames description direction)
     = Return resp ->
   generateMotionFrame ai base64Image frameIndex totalFrames description direction
     = Return ("data:image/png;base64," +:+ d)) /\
  (ai (upscale_request base64Image aspect) = Return resp ->
   upscaleFrame ai base64Image aspect = Return ("data:image/png;base64," +:+ d)).
Proof.
  intros Hcs Hct Hps Hpre Hinline Hdata Hne.
  assert (Hextract : forall missing,
            image_or_throw missing (Return resp)
            = Return ("data:image/png;base64," +:+ d)).
  { intros missing. unfold image_or_throw, extract_image.
    rewrite Hcs. cbn [lookup list_lookup]. rewrite Hct, Hps.
    rewrite (first_image_skips pre p post Hpre). cbn [first_image].
    rewrite Hinline, Hdata. cbn [truthy default from_option].
    rewrite (AppSpec.truthy_nonempty d Hne). reflexivity. }
  split; intros Hai.
  - unfold generateMotionFrame. rewrite Hai. apply Hextract.
  - unfold upscaleFrame. rewrite Hai. apply Hextract.
Qed.

Lemma first_image_part_wins_witness :
  generateMotionFrame (fun _ => Return Samples.late_image)
    Samples.jpeg_seed 1 10 "A bird flying" "Up"
  = Return "data:image/png;base64,FIRST".
Proof.
  refine (proj1 (first_image_part_wins (fun _ => Return Samples.late_image)
            Samples.jpeg_seed 1 10 "A bird flying" "Up" "1:1"
            Samples.late_image _ [] _
            [ Samples.text_part "Here is the frame.";
              {| text := None;
                 inlineData := Some {| data := Some ""; mimeType := Some "image/png" |} |} ]
            [Samples.image_part "SECOND"] (Samples.image_part "FIRST") _ "FIRST"
            eq_refl eq_refl eq_refl _ eq_refl eq_refl _) eq_refl).
  - repeat constructor.
  - discriminate.
Defined.

(** X9. Only the first candidate is read: when it has no part with
    non-empty inline data the call throws, even if another candidate of
    the same response carries an image; an empty candidate list throws as
    well. *)
Theorem only_first_candidate_is_read (ai : Service) (base64Image : string)
    (frameIndex totalFrames : nat) (description direction aspect : string)
    (resp : Response) :
  (candidates resp = Some [] \/
   exists c cs, candidates resp = Some (c :: cs) /\ candidate_has_image c = false) ->
  (ai (motion_request base64Image frameIndex totalFrames description direction)
     = Return resp ->
   exists e,
     generateMotionFrame ai base64Image frameIndex totalFrames description direction
       = Throw e) /\
  (ai (upscale_request base64Image aspect) = Return resp ->
   exists e, upscaleFrame ai base64Image aspect = Throw e).
Proof.
  intros Hfirst.
  assert (Hthrow : forall missing, exists e, image_or_throw missing (Return resp) = Throw e).
  { intros missing. unfold image_or_throw, extract_image.
    destruct Hfirst as [-> | (c & cs & -> & Hc)]; [eexists; reflexivity|].
    cbn [lookup list_lookup]. unfold candidate_has_image in Hc.
    destruct (content c) as [ct|]; [|eexists; reflexivity].
    destruct (parts ct) as [ps|]; [|eexists; reflexivity].
    rewrite (ServiceSpec.first_image_none ps Hc). eexists; reflexivity. }
  split; intros Hai.
  - unfold generateMotionFrame. rewrite Hai. apply Hthrow.
  - unfold upscaleFrame. rewrite Hai. apply Hthrow.
Qed.

Lemma only_first_candidate_is_read_witness :
  has_image_data Samples.second_candidate = true /\
  exists e,
    upscaleFrame (fun _ => Return Samples.second_candidate) Samples.jpeg_seed "1:1"
      = Throw e.
Proof.
  split; [reflexivity|].
  refine (proj2 (only_first_candidate_is_read (fun _ => Return Samples.second_candidate)
                   Samples.jpeg_seed 1 10 "A bird flying" "Up" "1:1"
                   Samples.second_candidate _) eq_refl).
  right. eexists _, _. split; reflexivity.
Defined.

End ServiceMore.

(** ** The payloads of the archive *)

Module ArchiveMore.
Import JS App.
Local Open Scope list_scope.

(** X10. The entry of a frame holds the raw base64 payload exactly when
    the frame begins with [data:image/], a non-empty run of letters,
    digits or underscores, and [;base64,]; every other frame is stored
    unchanged, under the name of its position. *)
Theorem archive_payloads (frames : list string) (i : nat) (frame : string) :
  frames !! i = Some frame ->
  (forall t d,
     t <> "" -> all_word t = true -> frame = data_url t d ->
     archive frames !! i = Some (expected_name i, d)) /\
  ((forall t d, t <> "" -> all_word t = true -> frame <> data_url t d) ->
   archive frames !! i = Some (expected_name i, frame)).
Proof.
  intros Hi.
  assert (Hentry : archive frames !! i
                   = Some (expected_name i, replace_start data_url_prefix frame)).
  { rewrite ArchiveSpec.archive_entries, list_lookup_imap, Hi. simpl.
    unfold entry. rewrite ArchiveSpec.frame_filename_expected. reflexivity. }
  rewrite Hentry. split.
  - intros t d Hne Hword ->. do 2 f_equal.
    apply PatternSpec.replace_start_matched, PatternSpec.data_url_prefix_exact.
    exists t. repeat split; assumption.
  - intros Hnone. do 2 f_equal. apply PatternSpec.replace_start_unmatched.
    destruct (match_start data_url_prefix frame) as [d|] eqn:Hm; [|reflexivity].
    apply PatternSpec.data_url_prefix_exact in Hm as (t & Hne & Hword & Heq).
    destruct (Hnone t d Hne Hword Heq).
Qed.

Lemma svg_has_no_word_subtype t d :
  t <> "" -> all_word t = true -> Samples.svg_seed <> data_url t d.
Proof.
  intros Hne Hword Heq.
  assert (Hm : match_start data_url_prefix Samples.svg_seed = Some d).
  { apply PatternSpec.data_url_prefix_exact. exists t. repeat split; assumption. }
  vm_compute in Hm. discriminate.
Qed.

Lemma archive_payloads_witness :
  archive [Samples.svg_seed; "data:image/png;base64,FRAME1"] !! 1
    = Some ("frame_002.png", "FRAME1") /\
  archive [Samples.svg_seed; "data:image/png;base64,FRAME1"] !! 0
    = Some ("frame_001.png", Samples.svg_seed).
Proof.
  split.
  - apply (archive_payloads [Samples.svg_seed; "data:image/png;base64,FRAME1"] 1
             "data:image/png;base64,FRAME1" eq_refl) with (t := "png");
      [discriminate | reflexivity | reflexivity].
  - apply (archive_payloads [Samples.svg_seed; "data:image/png;base64,FRAME1"] 0
             Samples.svg_seed eq_refl).
    apply svg_has_no_word_subtype.
Defined.

End ArchiveMore.

(** ** The player, continued *)

Module PlayerMore.
Import JS Player.
Local Open Scope Z_scope.

Lemma js_rem_mod x L : 0 <= x -> 0 < L -> js_rem x L = x mod L.
Proof. intros Hx HL. unfold js_rem. apply Z.rem_mod_nonneg; lia. Qed.

Lemma mod_plus_period i L : 0 <= i < L -> (i + L) mod L = i.
Proof.
  intros Hi. replace (i + L) with (i + 1 * L) by lia.
  rewrite Z_mod_plus_full. apply Z.mod_small, Hi.
Qed.

Lemma step_next frames st :
  frames <> [] ->
  step frames st Next
    = {| currentIndex := js_rem (currentIndex st + 1) (len frames); isPlaying := false |}.
Proof.
  intros Hne. unfold step.
  destruct (length frames =? 0)%nat eqn:H0; [|reflexivity].
  apply Nat.eqb_eq in H0. destruct frames; [congruence | discriminate].
Qed.

Lemma step_prev frames st :
  frames <> [] ->
  step frames st Prev
    = {| currentIndex := js_rem (currentIndex st - 1 + len frames) (len frames);
         isPlaying := false |}.
Proof.
  intros Hne. unfold step.
  destruct (length frames =? 0)%nat eqn:H0; [|reflexivity].
  apply Nat.eqb_eq in H0. destruct frames; [congruence | discriminate].
Qed.

(** X11. On a non-empty sequence, with the index in range, previous
    undoes next and next undoes previous, wrap-around included. *)
Theorem next_prev_inverse (frames : list string) (st : PlayerState) :
  frames <> [] ->
  0 <= currentIndex st < len frames ->
  currentIndex (step frames (step frames st Next) Prev) = currentIndex st /\
  currentIndex (step frames (step frames st Prev) Next) = currentIndex st.
Proof.
  intros Hne Hi. pose proof (PlayerSpec.len_pos frames Hne) as HL.
  rewrite !step_next, !step_prev by exact Hne. cbn [currentIndex].
  set (i := currentIndex st) in *. set (L := len frames) in *.
  split.
  - rewrite (js_rem_mod (i + 1) L) by lia.
    destruct (Z.eq_dec (i + 1) L) as [Heq|Hneq].
    + rewrite Heq, Z_mod_same_full. rewrite js_rem_mod by lia.
      replace (0 - 1 + L) with i by lia. apply Z.mod_small. lia.
    + rewrite (Z.mod_small (i + 1) L) by lia. rewrite js_rem_mod by lia.
      replace (i + 1 - 1 + L) with (i + L) by lia. apply mod_plus_period, Hi.
  - rewrite (js_rem_mod (i - 1 + L) L) by lia.
    destruct (Z.eq_dec i 0) as [Heq|Hneq].
    + rewrite Heq. replace (0 - 1 + L) with (L - 1) by lia.
      rewrite (Z.mod_small (L - 1) L) by lia. rewrite js_rem_mod by lia.
      replace (L - 1 + 1) with L by lia. apply Z_mod_same_full.
    + replace (i - 1 + L) with (i - 1 + 1 * L) by lia.
      rewrite Z_mod_plus_full, (Z.mod_small (i - 1) L) by lia.
      rewrite js_rem_mod by lia. replace (i - 1 + 1) with i by lia.
      apply Z.mod_small, Hi.
Qed.

Lemma next_prev_inverse_witness :
  currentIndex
    (step ["a"; "b"; "c"]
       (step ["a"; "b"; "c"] {| currentIndex := 2; isPlaying := true |} Next) Prev) = 2 /\
  currentIndex
    (step ["a"; "b"; "c"]
       (step ["a"; "b"; "c"] {| currentIndex := 0; isPlaying := true |} Prev) Next) = 0.
Proof.
  split.
  - apply (next_prev_inverse ["a"; "b"; "c"] {| currentIndex := 2; isPlaying := true |});
      [discriminate | vm_compute; split; [discriminate | reflexivity]].
  - apply (next_prev_inverse ["a"; "b"; "c"] {| currentIndex := 0; isPlaying := true |});
      [discriminate | vm_compute; split; [discriminate | reflexivity]].
Defined.

(** *** The timer *)

Lemma ticks_playing frames k : forall st,
  (1 < length frames)%nat ->
  isPlaying st = true ->
  0 <= currentIndex st < len frames ->
  fold_left (step frames) (replicate k Tick) st
    = {| currentIndex := (currentIndex st + Z.of_nat k) mod len frames;
         isPlaying := true |}.
Proof.
  induction k as [|k IH]; intros st HL Hplay Hi.
  - simpl. rewrite Z.add_0_r, Z.mod_small by exact Hi.
    destruct st as [i p]. simpl in *. subst p. reflexivity.
  - cbn [replicate fold_left].
    assert (Hstep : step frames st Tick
              = {| currentIndex := (currentIndex st + 1) mod len frames;
                   isPlaying := true |}).
    { unfold step. destruct (Nat.eqb_spec (length frames) 0) as [H0|_]; [lia|].
      rewrite Hplay. destruct (Nat.ltb_spec 1 (length frames)) as [_|H1]; [|lia].
      cbn [andb tick run_updates fold_left apply_update].
      rewrite Hplay, js_rem_mod by (unfold len; lia). reflexivity. }
    rewrite Hstep, IH; [|exact HL|reflexivity|].
    + cbn [currentIndex]. rewrite Zplus_mod_idemp_l. do 2 f_equal. lia.
    + cbn [currentIndex]. apply Z.mod_pos_bound. unfold len. lia.
Qed.

(** X12. While playing a sequence of more than one frame, [k] timer ticks
    move the index forward by [k] modulo the length and leave the player
    playing, so that a full round of [L] ticks shows every frame once and
    comes back to the frame it started from.  A tick does nothing when
    the player is paused or the sequence has a single frame. *)
Theorem ticks_cycle (frames : list string) (st : PlayerState) :
  0 <= currentIndex st < len frames ->
  (isPlaying st = true -> (1 < length frames)%nat ->
   (forall k,
      fold_left (step frames) (replicate k Tick) st
        = {| currentIndex := (currentIndex st + Z.of_nat k) mod len frames;
             isPlaying := true |}) /\
   fold_left (step frames) (replicate (length frames) Tick) st = st) /\
  (isPlaying st = false \/ (length frames <= 1)%nat -> step frames st Tick = st).
Proof.
  intros Hi. split.
  - intros Hplay HL. split.
    + intros k. apply ticks_playing; assumption.
    + rewrite ticks_playing by assumption.
      fold (len frames). rewrite mod_plus_period by exact Hi.
      destruct st as [i p]. simpl in *. subst p. reflexivity.
  - intros Hidle. unfold step.
    destruct (length frames =? 0)%nat; [reflexivity|].
    destruct Hidle as [-> | Hone]; [reflexivity|].
    destruct (Nat.ltb_spec 1 (length frames)) as [Hlt|_]; [lia|].
    rewrite andb_false_r. reflexivity.
Qed.

Lemma ticks_cycle_witness :
  fold_left (step ["a"; "b"; "c"]) (replicate 3 Tick)
    {| currentIndex := 1; isPlaying := true |}
  = {| currentIndex := 1; isPlaying := true |} /\
  step ["a"] {| currentIndex := 0; isPlaying := true |} Tick
  = {| currentIndex := 0; isPlaying := true |}.
Proof.
  split.
  - apply (ticks_cycle ["a"; "b"; "c"] {| currentIndex := 1; isPlaying := true |});
      [vm_compute; split; [discriminate | reflexivity] | reflexivity | simpl; lia].
  - apply (ticks_cycle ["a"] {| currentIndex := 0; isPlaying := true |});
      [vm_compute; split; [discriminate | reflexivity] | right; simpl; lia].
Defined.

(** X13. Whatever the user and the timer do to a mounted player of a
    non-empty sequence, the image shown, [frames[currentIndex]], is a
    frame of the sequence: the index never points outside it. *)
Theorem shown_frame_exists (frames : list string) (acts : list action) :
  frames <> [] ->
  0 <= currentIndex (play frames acts) /\
  exists frame,
    frames !! Z.to_nat (currentIndex (play frames acts)) = Some frame.
Proof.
  intros Hne.
  pose proof (PlayerSpec.fold_step_in_range frames acts initial Hne) as H.
  unfold play. simpl in H.
  assert (Hrange : 0 <= 0 < len frames) by (pose proof (PlayerSpec.len_pos frames Hne); lia).
  specialize (H Hrange). split; [lia|].
  apply lookup_lt_is_Some. unfold len in H. lia.
Qed.

Lemma shown_frame_exists_witness :
  exists frame,
    ["a"; "b"; "c"]
      !! Z.to_nat (currentIndex (play ["a"; "b"; "c"] [Prev; PlayPause; Tick; Thumbnail 7]))
    = Some frame.
Proof.
  apply (shown_frame_exists ["a"; "b"; "c"] [Prev; PlayPause; Tick; Thumbnail 7]).
  discriminate.
Defined.

End PlayerMore.

(** ** Sorting, continued *)

Module SortMore.
Import JS App.
Local Open Scope list_scope.

(** X14. Sorting by request index returns a rearrangement of the results
    in ascending index order, whatever the results; and for the results
    of a batch, taken in any order of arrival, the sorted frames are the
    frames in request order, for the 1-based indices of generate as for
    the 0-based indices of upscale. *)
Theorem sort_restores_request_order (results : list Item)
    (value_of : nat -> string) (n : nat) :
  sort by_index results ≡ₚ results /\
  StronglySorted index_le (sort by_index results) /\
  (results ≡ₚ (fun p => {| index := p + 1; frame := value_of p |}) <$> seq 0 n ->
   sorted_frames results = value_of <$> seq 0 n) /\
  (results ≡ₚ (fun p => {| index := p; frame := value_of p |}) <$> seq 0 n ->
   sorted_frames results = value_of <$> seq 0 n).
Proof.
  split; [apply SortFacts.sort_perm|].
  split; [apply SortFacts.fold_insert_index_sorted; constructor|].
  split; intros Hperm.
  - apply (SortFacts.sorted_frames_any_order (fun p => p + 1) value_of n results);
      [intros; lia | exact Hperm].
  - apply (SortFacts.sorted_frames_any_order (fun p => p) value_of n results);
      [intros; lia | exact Hperm].
Qed.

Lemma sort_restores_request_order_witness :
  sorted_frames
    [ {| index := 3; frame := "c" |}; {| index := 1; frame := "a" |};
      {| index := 2; frame := "b" |} ]
  = ["a"; "b"; "c"].
Proof.
  refine (proj1 (proj2 (proj2 (sort_restores_request_order
            [ {| index := 3; frame := "c" |}; {| index := 1; frame := "a" |};
              {| index := 2; frame := "b" |} ]
            (fun p => match p with 0 => "a" | 1 => "b" | _ => "c" end) 3))) _).
  simpl. etransitivity; [apply Permutation_swap|].
  apply perm_skip, Permutation_swap.
Defined.

End SortMore.

(** ** The uploader *)

Module UploaderSpec.
Import JS App Uploader.
Local Open Scope list_scope.

(** X15. A file whose type does not start with [image/] is rejected with
    the alert and nothing else happens: seed, sequence and status stay as
    they were, through the file dialog as through a drop, which also ends
    the dragging state; and without a file nothing happens at all. *)
Theorem upload_rejects_other_files (readable : bool) (file : File) (w : World)
    (dragging : bool) :
  startsWith (type file) "image/" = false ->
  ui (handleFileChange readable (Some file) w) = ui w /\
  alerts (handleFileChange readable (Some file) w) = alerts w ++ [not_image_msg] /\
  handleDrop readable (Some file) (dragging, w)
    = (false, handleFileChange readable (Some file) w) /\
  handleFileChange readable None w = w /\
  handleDrop readable None (dragging, w) = (false, w).
Proof.
  intros Htype. unfold handleDrop, handleFileChange, processFile.
  rewrite Htype. repeat split.
Qed.

Lemma upload_rejects_other_files_witness :
  ui (handleFileChange true (Some Samples.notes) Samples.showing) = ui Samples.showing /\
  alerts (handleFileChange true (Some Samples.notes) Samples.showing)
    = [not_image_msg].
Proof.
  destruct (upload_rejects_other_files true Samples.notes Samples.showing false)
    as (Hui & Halerts & _); [reflexivity|].
  split; [exact Hui | exact Halerts].
Defined.

(** Two word-character subtypes followed by [;] in the same string are
    the same subtype. *)
Lemma word_subtype_unique t : forall t' r r',
  all_word t = true -> all_word t' = true ->
  t +:+ String ";" r = t' +:+ String ";" r' -> t = t'.
Proof.
  induction t as [|a t IH]; intros [|b t'] r r' Ht Ht' Heq.
  - reflexivity.
  - rewrite ArchiveSpec.app_string_cons in Heq.
    change ("" +:+ String ";" r) with (String ";" r) in Heq.
    injection Heq as <- _. simpl in Ht'. discriminate.
  - rewrite ArchiveSpec.app_string_cons in Heq.
    change ("" +:+ String ";" r') with (String ";" r') in Heq.
    injection Heq as -> _. simpl in Ht. discriminate.
  - rewrite !ArchiveSpec.app_string_cons in Heq. injection Heq as -> Heq.
    simpl in Ht, Ht'. apply andb_true_iff in Ht as [_ Ht].
    apply andb_true_iff in Ht' as [_ Ht'].
    rewrite (IH t' r r' Ht Ht' Heq). reflexivity.
Qed.

Lemma dataURL_image t (file : File) :
  type file = "image/" +:+ t -> dataURL file = data_url t (content file).
Proof. unfold dataURL, data_url. intros ->. reflexivity. Qed.

(** X16. A readable image file of type [image/<t>] becomes the seed as
    the data URL [data:image/<t>;base64,<bytes>], and the previous
    sequence and status are cleared.  The requests built from that seed
    carry the bare bytes when [t] is png, jpeg, jpg or webp; for any other
    subtype made of letters, digits and underscores (gif, bmp, avif, ...)
    they carry the whole data URL, prefix included. *)
Theorem upload_image_then_request (file : File) (t : string) (w : World)
    (frameIndex totalFrames : nat) (description direction : string) :
  type file = "image/" +:+ t ->
  originalImage (ui (handleFileChange true (Some file) w))
    = Some (data_url t (content file)) /\
  generatedFrames (ui (handleFileChange true (Some file) w)) = [] /\
  status (ui (handleFileChange true (Some file) w)) = initial_status /\
  alerts (handleFileChange true (Some file) w) = alerts w /\
  (t ∈ ["png"; "jpeg"; "jpg"; "webp"] ->
   GeminiService.imageData
     (GeminiService.motion_request (dataURL file) frameIndex totalFrames
        description direction) = content file) /\
  (all_word t = true -> t ∉ ["png"; "jpeg"; "jpg"; "webp"] ->
   GeminiService.imageData
     (GeminiService.motion_request (dataURL file) frameIndex totalFrames
        description direction) = data_url t (content file)).
Proof.
  intros Htype. pose proof (dataURL_image t file Htype) as Hurl.
  assert (Hstarts : startsWith (type file) "image/" = true).
  { unfold startsWith. rewrite Htype, ArchiveSpec.strip_lit_app. reflexivity. }
  unfold handleFileChange, processFile. rewrite Hstarts, Hurl. cbn [negb onImageSelect].
  split; [reflexivity|]. split; [reflexivity|]. split; [reflexivity|].
  split; [reflexivity|].
  cbn [GeminiService.imageData GeminiService.motion_request]. split.
  - intros Ht. apply PatternSpec.replace_start_matched.
    apply PatternSpec.input_prefix_exact. exists t. split; [exact Ht | reflexivity].
  - intros Hword Hnot. apply PatternSpec.replace_start_unmatched.
    destruct (match_start GeminiService.input_prefix (data_url t (content file)))
      as [d|] eqn:Hm; [|reflexivity].
    apply PatternSpec.input_prefix_exact in Hm as (t' & Ht' & Heq).
    exfalso. apply Hnot.
    assert (Hword' : all_word t' = true).
    { rewrite !elem_of_cons, elem_of_nil in Ht'.
      destruct Ht' as [->|[->|[->|[->|[]]]]]; reflexivity. }
    unfold data_url in Heq. apply (inj (String.app "data:image/")) in Heq.
    rewrite (word_subtype_unique t t' _ _ Hword Hword' Heq). exact Ht'.
Qed.

Lemma upload_image_then_request_witness :
  GeminiService.imageData
    (GeminiService.motion_request (dataURL Samples.photo) 1 10 "A bird flying" "Up")
    = "/9j/4AAQ" /\
  GeminiService.imageData
    (GeminiService.motion_request (dataURL Samples.animation) 1 10 "A bird flying" "Up")
    = "data:image/gif;base64,R0lGODlh".
Proof.
  split.
  - apply (upload_image_then_request Samples.photo "jpeg" initial 1 10
             "A bird flying" "Up" eq_refl).
    rewrite !elem_of_cons. auto.
  - apply (upload_image_then_request Samples.animation "gif" initial 1 10
             "A bird flying" "Up" eq_refl); [reflexivity|].
    rewrite !elem_of_cons, elem_of_nil.
    intros [H|[H|[H|[H|[]]]]]; discriminate.
Defined.

End UploaderSpec.

(** ** What holds throughout a session *)

Module SessionSpec.
Import JS App Session.
Local Open Scope list_scope.

(** *** What each handler keeps *)

Lemma sorted_frames_length results : length (sorted_frames results) = length results.
Proof.
  unfold sorted_frames. rewrite length_map.
  apply Permutation_length, SortFacts.sort_perm.
Qed.

Lemma sorted_frames_Forall (Q : string -> Prop) results :
  Forall (fun item => Q (frame item)) results -> Forall Q (sorted_frames results).
Proof.
  intros H. unfold sorted_frames. apply Forall_forall. intros x Hx.
  apply (list_elem_of_fmap_1 frame) in Hx as (item & -> & Hitem).
  rewrite Forall_forall in H. apply H.
  rewrite <- (SortFacts.sort_perm by_index results). exact Hitem.
Qed.

Ltac run_keeps Q :=
  apply (AsyncMore.run_invariant _ _ _ _ _ _ _ Q).

Ltac run_keeps_that P :=
  apply (AsyncMore.run_invariant _ _ _ _ _ _ P (fun _ : Item => True)).

Lemma generate_full_or_empty env order w :
  full_or_empty w -> full_or_empty (handleGenerate env order w).
Proof.
  intros Hw. unfold handleGenerate.
  destruct (originalImage (ui w)) as [seed|]; [|exact Hw].
  destruct (truthy_string seed); [|exact Hw].
  run_keeps (fun _ : Item => True).
  - intros; exact I.
  - intros s Hs. exact Hs.
  - intros e s Hs. exact Hs.
  - intros vs s Hlen _ _. right. simpl. rewrite sorted_frames_length, Hlen. reflexivity.
  - left. reflexivity.
Qed.

Lemma upscale_keeps_length env order w :
  length (generatedFrames (ui (handleUpscale env order w)))
    = length (generatedFrames (ui w)).
Proof.
  unfold handleUpscale. cbv zeta.
  destruct (length (generatedFrames (ui w)) =? 0)%nat; [reflexivity|].
  destruct (negb (key_stage env)); [reflexivity|].
  destruct (getClosestAspectRatio env _) as [aspect|e]; [|reflexivity].
  run_keeps_that (fun s : World =>
    length (generatedFrames (ui s)) = length (generatedFrames (ui w))).
  - intros; exact I.
  - intros s Hs. exact Hs.
  - intros e s Hs. exact Hs.
  - intros vs s Hlen _ _. simpl. rewrite sorted_frames_length. exact Hlen.
  - reflexivity.
Qed.

Lemma generate_png env order w :
  generated_are_png w -> generated_are_png (handleGenerate env order w).
Proof.
  intros Hw. unfold handleGenerate.
  destruct (originalImage (ui w)) as [seed|]; [|exact Hw].
  destruct (truthy_string seed); [|exact Hw].
  run_keeps (fun item : Item => is_png_url (frame item)).
  - intros p v Hv. simpl. apply (ServiceSpec.image_or_throw_prefix _ _ _ Hv).
  - intros s Hs. exact Hs.
  - intros e s Hs. exact Hs.
  - intros vs s _ Hvs _. unfold generated_are_png. simpl.
    apply sorted_frames_Forall, Hvs.
  - constructor.
Qed.

Lemma upscale_png env order w :
  generated_are_png w -> generated_are_png (handleUpscale env order w).
Proof.
  intros Hw. unfold handleUpscale. cbv zeta.
  destruct (length (generatedFrames (ui w)) =? 0)%nat; [exact Hw|].
  destruct (negb (key_stage env)); [exact Hw|].
  destruct (getClosestAspectRatio env _) as [aspect|e]; [|exact Hw].
  run_keeps (fun item : Item => is_png_url (frame item)).
  - intros p v Hv. simpl. apply (ServiceSpec.image_or_throw_prefix _ _ _ Hv).
  - intros s Hs. exact Hs.
  - intros e s Hs. exact Hs.
  - intros vs s _ Hvs _. unfold generated_are_png. simpl.
    apply Forall_tail, sorted_frames_Forall, Hvs.
  - exact Hw.
Qed.

Lemma generate_direction env order w :
  selectedDirection (ui (handleGenerate env order w)) = selectedDirection (ui w).
Proof.
  unfold handleGenerate.
  destruct (originalImage (ui w)) as [seed|]; [|reflexivity].
  destruct (truthy_string seed); [|reflexivity].
  run_keeps_that (fun s : World => selectedDirection (ui s) = selectedDirection (ui w));
    try reflexivity; intros; try exact I; assumption.
Qed.

Lemma upscale_direction env order w :
  selectedDirection (ui (handleUpscale env order w)) = selectedDirection (ui w).
Proof.
  unfold handleUpscale. cbv zeta.
  destruct (length (generatedFrames (ui w)) =? 0)%nat; [reflexivity|].
  destruct (negb (key_stage env)); [reflexivity|].
  destruct (getClosestAspectRatio env _) as [aspect|e]; [|reflexivity].
  run_keeps_that (fun s : World => selectedDirection (ui s) = selectedDirection (ui w));
    try reflexivity; intros; try exact I; assumption.
Qed.

(** The exports change nothing of the state but the downloading flag. *)
Lemma video_keeps env w :
  generatedFrames (ui (handleDownloadVideo env w)) = generatedFrames (ui w) /\
  selectedDirection (ui (handleDownloadVideo env w)) = selectedDirection (ui w).
Proof.
  unfold handleDownloadVideo. cbv zeta.
  destruct (length (generatedFrames (ui w)) =? 0)%nat; [split; reflexivity|].
  destruct (negb (canvasContext env)); [split; reflexivity|].
  destruct (loadImage env _); [|split; reflexivity].
  destruct (pick_mime env); [|split; reflexivity].
  destruct (draw_frames env _); split; reflexivity.
Qed.

Lemma zip_keeps env w :
  generatedFrames (ui (handleDownloadZip env w)) = generatedFrames (ui w) /\
  selectedDirection (ui (handleDownloadZip env w)) = selectedDirection (ui w).
Proof.
  unfold handleDownloadZip. cbv zeta.
  destruct (length (generatedFrames (ui w)) =? 0)%nat; [split; reflexivity|].
  destruct (zipError env _); split; reflexivity.
Qed.

Lemma upload_frames readable file w :
  generatedFrames (ui (Uploader.handleFileChange readable file w)) = [] \/
  generatedFrames (ui (Uploader.handleFileChange readable file w))
    = generatedFrames (ui w).
Proof.
  unfold Uploader.handleFileChange, Uploader.processFile.
  destruct file as [f|]; [|right; reflexivity].
  destruct (negb (startsWith (Uploader.type f) "image/")); [right; reflexivity|].
  left. destruct readable; reflexivity.
Qed.

Lemma upload_direction readable file w :
  selectedDirection (ui (Uploader.handleFileChange readable file w))
    = selectedDirection (ui w).
Proof.
  unfold Uploader.handleFileChange, Uploader.processFile.
  destruct file as [f|]; [|reflexivity].
  destruct (negb (startsWith (Uploader.type f) "image/")); [reflexivity|].
  destruct readable; reflexivity.
Qed.

(** *** Invariants of [step] *)

Lemma step_full_or_empty w ev : full_or_empty w -> full_or_empty (step w ev).
Proof.
  intros Hw. destruct ev as [readable file|text|k|env order|env order|env|env]; simpl.
  - unfold full_or_empty.
    destruct (upload_frames readable file w) as [-> | ->]; [left; reflexivity | exact Hw].
  - destruct (settings_disabled w); exact Hw.
  - destruct (settings_disabled w); [exact Hw|].
    destruct (DIRECTION_OPTIONS !! k); exact Hw.
  - destruct (generate_disabled w); [exact Hw | apply generate_full_or_empty, Hw].
  - destruct (actions_rendered w && negb (actions_disabled w)); [|exact Hw].
    unfold full_or_empty in *.
    destruct Hw as [Hw|Hw].
    + left. apply length_zero_iff_nil. rewrite upscale_keeps_length, Hw. reflexivity.
    + right. rewrite upscale_keeps_length. exact Hw.
  - destruct (actions_rendered w && negb (actions_disabled w)); [|exact Hw].
    unfold full_or_empty. rewrite (proj1 (video_keeps env w)). exact Hw.
  - destruct (actions_rendered w && negb (actions_disabled w)); [|exact Hw].
    unfold full_or_empty. rewrite (proj1 (zip_keeps env w)). exact Hw.
Qed.

Lemma step_png w ev : generated_are_png w -> generated_are_png (step w ev).
Proof.
  intros Hw. destruct ev as [readable file|text|k|env order|env order|env|env]; simpl.
  - unfold generated_are_png.
    destruct (upload_frames readable file w) as [-> | ->]; [constructor | exact Hw].
  - destruct (settings_disabled w); exact Hw.
  - destruct (settings_disabled w); [exact Hw|].
    destruct (DIRECTION_OPTIONS !! k); exact Hw.
  - destruct (generate_disabled w); [exact Hw | apply generate_png, Hw].
  - destruct (actions_rendered w && negb (actions_disabled w)); [|exact Hw].
    apply upscale_png, Hw.
  - destruct (actions_rendered w && negb (actions_disabled w)); [|exact Hw].
    unfold generated_are_png. rewrite (proj1 (video_keeps env w)). exact Hw.
  - destruct (actions_rendered w && negb (actions_disabled w)); [|exact Hw].
    unfold generated_are_png. rewrite (proj1 (zip_keeps env w)). exact Hw.
Qed.

Lemma step_direction w ev :
  selectedDirection (ui w) ∈ direction_ids ->
  selectedDirection (ui (step w ev)) ∈ direction_ids.
Proof.
  intros Hw. destruct ev as [readable file|text|k|env order|env order|env|env]; simpl.
  - rewrite upload_direction. exact Hw.
  - destruct (settings_disabled w); exact Hw.
  - destruct (settings_disabled w); [exact Hw|].
    destruct (DIRECTION_OPTIONS !! k) as [dir|] eqn:Hk; [|exact Hw].
    simpl. apply (list_elem_of_fmap_2 fst), (list_elem_of_lookup_2 _ k), Hk.
  - destruct (generate_disabled w); [exact Hw|]. rewrite generate_direction. exact Hw.
  - destruct (actions_rendered w && negb (actions_disabled w)); [|exact Hw].
    rewrite upscale_direction. exact Hw.
  - destruct (actions_rendered w && negb (actions_disabled w)); [|exact Hw].
    rewrite (proj2 (video_keeps env w)). exact Hw.
  - destruct (actions_rendered w && negb (actions_disabled w)); [|exact Hw].
    rewrite (proj2 (zip_keeps env w)). exact Hw.
Qed.

Lemma fold_step_keeps (P : World -> Prop) :
  (forall w ev, P w -> P (step w ev)) ->
  forall evs w, P w -> P (fold_left step evs w).
Proof.
  intros Hstep evs. induction evs as [|ev evs IH]; intros w Hw; [exact Hw|].
  simpl. apply IH, Hstep, Hw.
Qed.

(** X17. Whatever the user does and however the requests end (in any
    order, failing, or never settling), the sequence on display is either
    empty or the seed with the ten generated frames, eleven in all; and
    an upscale never changes the length of the sequence. *)
Theorem session_sequence_shape :
  (forall evs,
     generatedFrames (ui (run evs)) = [] \/
     length (generatedFrames (ui (run evs))) = TOTAL_FRAMES + 1) /\
  (forall env order w,
     length (generatedFrames (ui (handleUpscale env order w)))
       = length (generatedFrames (ui w))).
Proof.
  split.
  - intros evs. apply (fold_step_keeps full_or_empty step_full_or_empty).
    left. reflexivity.
  - apply upscale_keeps_length.
Qed.

(** X18. Throughout a session every frame behind the first is a
    [data:image/png;base64,] URL, whatever the seed was and whether or
    not the sequence was upscaled; the archive therefore stores each of
    them as its bare base64 payload, and only the first entry can keep a
    prefix. *)
Theorem session_generated_frames (evs : list event) (i : nat) (frame : string) :
  1 <= i ->
  generatedFrames (ui (run evs)) !! i = Some frame ->
  exists d,
    frame = "data:image/png;base64," +:+ d /\
    archive (generatedFrames (ui (run evs))) !! i = Some (expected_name i, d).
Proof.
  intros Hi Hframe.
  assert (Hpng : generated_are_png (run evs)).
  { apply (fold_step_keeps generated_are_png step_png). constructor. }
  unfold generated_are_png in Hpng. rewrite Forall_forall in Hpng.
  destruct (Hpng frame) as [d Hd].
  { destruct i as [|i]; [lia|].
    destruct (generatedFrames (ui (run evs))) as [|f frames]; [discriminate|].
    simpl in Hframe |- *. apply (list_elem_of_lookup_2 _ i), Hframe. }
  exists d. split; [exact Hd|].
  apply (ArchiveSpec.archive_word_subtypes _ i "png" d);
    [rewrite Hframe, Hd; reflexivity | discriminate | reflexivity].
Qed.

Lemma session_generated_frames_witness :
  exists d,
    "data:image/png;base64,FRAME3" = "data:image/png;base64," +:+ d /\
    archive
      (generatedFrames
         (ui (run [ Upload true (Some Samples.photo);
                    ChooseDirection 4;
                    ClickGenerate (Samples.browser Samples.painter)
                      (Samples.reversed 10) ]))) !! 3
    = Some (expected_name 3, d).
Proof.
  apply (session_generated_frames
           [ Upload true (Some Samples.photo);
             ChooseDirection 4;
             ClickGenerate (Samples.browser Samples.painter) (Samples.reversed 10) ]
           3 "data:image/png;base64,FRAME3").
  - lia.
  - reflexivity.
Defined.

(** X19. The direction sent to the service is always one of the six
    labels of the direction buttons: it starts as [Right], only a
    direction button changes it, and no handler touches it. *)
Theorem session_direction (evs : list event) :
  selectedDirection (ui (run evs))
    ∈ ["Left"; "Right"; "Up"; "Down"; "Zoom In"; "Zoom Out"].
Proof.
  apply (fold_step_keeps
           (fun w => selectedDirection (ui w) ∈ direction_ids) step_direction).
  unfold direction_ids. simpl. rewrite !elem_of_cons. auto.
Qed.

End SessionSpec.
